(** * RAG document pipeline (index.js): chunking, folder indexing, retrieval,
      context assembly and query validation.

    The development embeds the relevant functions of [index.js] and the SQL
    function [match_documents] of the README and states the properties of
    the specification over them. *)

From Stdlib Require Import List ZArith NArith Lia Bool String Ascii.
From Stdlib Require Import DecimalString QArith Sorting Permutation.
Import ListNotations.

Local Open Scope Z_scope.

(** ** JavaScript strings

    A JavaScript string is a finite sequence of UTF-16 code units.  The
    functions below are the built-ins the source calls on strings. *)

Module JS.

Definition codeunit := N.
Definition jsstring := list codeunit.

(** An ASCII literal as a JavaScript string. *)
Definition js (s : string) : jsstring :=
  map N_of_ascii (list_ascii_of_string s).

Definition SPACE : codeunit := 32%N.
Definition LF : codeunit := 10%N.

(** The class [\s] of a regular expression, which is also the set of code
    units removed by [String.prototype.trim]: WhiteSpace and LineTerminator. *)
Definition isWhiteSpace (c : codeunit) : bool :=
  ((9 <=? c) && (c <=? 13)          (* TAB, LF, VT, FF, CR *)
   || (c =? 32)                     (* SPACE *)
   || (c =? 160)                    (* NO-BREAK SPACE *)
   || (c =? 5760)                   (* U+1680 *)
   || (8192 <=? c) && (c <=? 8202)  (* U+2000 .. U+200A *)
   || (c =? 8232) || (c =? 8233)    (* U+2028, U+2029 *)
   || (c =? 8239)                   (* U+202F *)
   || (c =? 8287)                   (* U+205F *)
   || (c =? 12288)                  (* U+3000 *)
   || (c =? 65279))%N.              (* U+FEFF *)

Definition length (s : jsstring) : Z := Z.of_nat (List.length s).

Fixpoint dropWhile (p : codeunit -> bool) (s : jsstring) : jsstring :=
  match s with
  | [] => []
  | c :: s' => if p c then dropWhile p s' else s
  end.

Definition trimStart (s : jsstring) : jsstring := dropWhile isWhiteSpace s.
Definition trimEnd (s : jsstring) : jsstring :=
  rev (dropWhile isWhiteSpace (rev s)).

(** [s.trim()] *)
Definition trim (s : jsstring) : jsstring := trimEnd (trimStart s).

(** [s.replace(/\s+/g, ' ')]: every maximal run of white space becomes one
    space.  [inRun] tells that the previous code unit was white space. *)
Fixpoint collapseRuns (inRun : bool) (s : jsstring) : jsstring :=
  match s with
  | [] => []
  | c :: s' =>
      if isWhiteSpace c
      then (if inRun then collapseRuns true s'
            else SPACE :: collapseRuns true s')
      else c :: collapseRuns false s'
  end.

Definition replaceWhiteSpaceRuns (s : jsstring) : jsstring :=
  collapseRuns false s.

(** [s.replace(/\n/g, ' ')] *)
Definition replaceNewlines (s : jsstring) : jsstring :=
  map (fun c => if (c =? LF)%N then SPACE else c) s.

(** [s.substring(a, b)]: both indices are clamped to [0, length] and swapped
    when the first is the larger. *)
Definition clamp (x len : Z) : Z := Z.min (Z.max x 0) len.

Definition substring (s : jsstring) (a b : Z) : jsstring :=
  let len := length s in
  let a' := clamp a len in
  let b' := clamp b len in
  let from := Z.min a' b' in
  let to := Z.max a' b' in
  firstn (Z.to_nat (to - from)) (skipn (Z.to_nat from) s).

(** [s.endsWith(suffix)] *)
Definition endsWith (s suffix : jsstring) : bool :=
  let n := List.length s in
  let m := List.length suffix in
  (m <=? n)%nat &&
  (if list_eq_dec N.eq_dec (skipn (n - m) s) suffix then true else false).

(** Decimal rendering of a non-negative integer, as template literals do. *)
Definition decimal (n : nat) : jsstring :=
  js (NilZero.string_of_uint (Nat.to_uint n)).

End JS.

Import JS.

(** ** The chunker: [chunkText] (index.js lines 37-49)

    The [for] loop of the source need not end (nothing forces the stride
    [chunkSize - chunkOverlap] to be positive), so the loop is run with
    fuel: [None] means the fuel ran out before the loop condition failed.
    The source has no [throw]: a call that completes returns its array.
    The two parameters are counts of code units, taken as integers. *)

Definition keepChunk (chunk : jsstring) : bool :=
  0 <? JS.length (trim chunk).

Fixpoint chunkLoop (fuel : nat) (cleanText : jsstring)
    (chunkSize chunkOverlap : Z) (i : Z) (textChunks : list jsstring)
  : option (list jsstring) :=
  match fuel with
  | O => None
  | S fuel' =>
      if i <? JS.length cleanText then
        let chunk := substring cleanText i (i + chunkSize) in
        let textChunks' :=
          if keepChunk chunk then textChunks ++ [chunk] else textChunks in
        chunkLoop fuel' cleanText chunkSize chunkOverlap
                  (i + (chunkSize - chunkOverlap)) textChunks'
      else Some textChunks
  end.

Definition cleanText (text : jsstring) : jsstring :=
  trim (replaceWhiteSpaceRuns text).

Definition chunkText_fuel (fuel : nat) (text : jsstring)
    (chunkSize chunkOverlap : Z) : option (list jsstring) :=
  chunkLoop fuel (cleanText text) chunkSize chunkOverlap 0 [].

(** [chunkText text chunkSize chunkOverlap] returns [chunks]. *)
Definition chunkText_returns (text : jsstring) (chunkSize chunkOverlap : Z)
    (chunks : list jsstring) : Prop :=
  exists fuel, chunkText_fuel fuel text chunkSize chunkOverlap = Some chunks.

(** The same loop with a ghost component: each pushed chunk is recorded
    together with the offset [i] it was cut at. *)
Fixpoint chunkLoopAt (fuel : nat) (cleanText : jsstring)
    (chunkSize chunkOverlap : Z) (i : Z) (spans : list (Z * jsstring))
  : option (list (Z * jsstring)) :=
  match fuel with
  | O => None
  | S fuel' =>
      if i <? JS.length cleanText then
        let chunk := substring cleanText i (i + chunkSize) in
        let spans' :=
          if keepChunk chunk then spans ++ [(i, chunk)] else spans in
        chunkLoopAt fuel' cleanText chunkSize chunkOverlap
                    (i + (chunkSize - chunkOverlap)) spans'
      else Some spans
  end.

Definition chunkSpans_fuel (fuel : nat) (text : jsstring)
    (chunkSize chunkOverlap : Z) : option (list (Z * jsstring)) :=
  chunkLoopAt fuel (cleanText text) chunkSize chunkOverlap 0 [].

(** Default parameters of the source. *)
Definition defaultChunkSize : Z := 1000.
Definition defaultChunkOverlap : Z := 200.

(** [chunkText(text)] as [indexLocalDocs] calls it, with the default
    parameters.  The stride is 800, so the loop ends within
    [length cleanText + 1] tests of its condition ([chunkText_fuel_enough]
    below); the [None] branch is never taken. *)
Definition chunkText (text : jsstring) : list jsstring :=
  match chunkText_fuel (S (List.length (cleanText text))) text
          defaultChunkSize defaultChunkOverlap with
  | Some textChunks => textChunks
  | None => []
  end.

(** What "the last [n] characters" and "the first [n] characters" of a chunk
    mean in the statements below. *)
Definition lastChars (n : Z) (s : jsstring) : jsstring :=
  skipn (List.length s - Z.to_nat n) s.
Definition firstChars (n : Z) (s : jsstring) : jsstring :=
  firstn (Z.to_nat n) s.

(** A span [(i, chunk)] covers position [p] of the text. *)
Definition covers (span : Z * jsstring) (p : Z) : Prop :=
  fst span <= p < fst span + JS.length (snd span).

(** ** Persisted state, console and collaborators *)

Definition vector := list Q.

Definition isEmpty (s : jsstring) : bool :=
  match s with [] => true | _ :: _ => false end.

(** [s || null] on a string. *)
Definition orNull (s : jsstring) : option jsstring :=
  if isEmpty s then None else Some s.

(** The object passed to [insert]. *)
Record NewRow := {
  new_content : jsstring;
  new_embedding : vector;
  new_title : option jsstring;
  new_source : option jsstring;
  new_path : option jsstring
}.

(** A row of the table "MyPDFDocuments" (README, section 2), without its
    timestamp. *)
Record StoredRow := {
  id : Z;
  content : jsstring;
  embedding : vector;
  title : option jsstring;
  source : option jsstring;
  path : option jsstring
}.

Record Metadata := {
  meta_title : jsstring;
  meta_source : jsstring;
  meta_path : jsstring
}.

Inductive ConsoleEvent :=
| LogIndexing (fullPath : jsstring)
| WarnNoText (file : jsstring)
| ErrorInsert (chunk : jsstring).

Record State := {
  table : list StoredRow;
  console : list ConsoleEvent
}.

Inductive Error :=
| DocsFolderNotFound
| ExtractionFailed
| EmbeddingFailed
| InsertFailed
| SearchFailed
| GenerationFailed
| TypeError.

Record Message := { role : jsstring; message_content : jsstring }.

Record ChatRequest := {
  model : jsstring;
  messages : list Message;
  temperature : Q;
  max_tokens : Z
}.

(** The file system, the built-ins with Unicode or platform tables, and the
    three external services.  An [option] result is [None] when the call
    throws or its promise rejects. *)
Record Collaborators := {
  existsSync_docs : bool;                       (* fs.existsSync(DOCS_DIR) *)
  readdirSync_docs : list jsstring;             (* fs.readdirSync(DOCS_DIR) *)
  toLowerCase : jsstring -> jsstring;
  path_join_docs : jsstring -> jsstring;        (* path.join(DOCS_DIR, file) *)
  path_parse_name : jsstring -> jsstring;       (* path.parse(file).name *)
  (* readFileSync followed by PDFParse.getText: [Some t] is [pdfData.text],
     with [t = None] when that property is undefined or null *)
  pdf_getText : jsstring -> option (option jsstring);
  embeddings_create : jsstring -> option vector;
  insert_error : NewRow -> bool;                (* the [error] of insert *)
  cosine_distance : vector -> vector -> Q;      (* pgvector's [<=>] *)
  rpc_error : bool;                             (* the [error] of rpc *)
  chat_completions_create : ChatRequest -> option jsstring
}.

Definition log (st : State) (e : ConsoleEvent) : State :=
  {| table := table st; console := console st ++ [e] |}.

(** A successful insert: the row gets the next serial id. *)
Definition insertRow (st : State) (r : NewRow) : State :=
  {| table := table st ++
       [ {| id := Z.of_nat (List.length (table st)) + 1;
            content := new_content r;
            embedding := new_embedding r;
            title := new_title r;
            source := new_source r;
            path := new_path r |} ];
     console := console st |}.

(** ** The indexer: [saveChunksAsEmbeddings] (lines 52-78) and
       [indexLocalDocs] (lines 81-116)

    [textChunks.map] starts one asynchronous operation per chunk and
    [Promise.all] rejects as soon as one of them does; the operations of the
    other chunks are not cancelled.  The source fixes no order between the
    operations.  The function below takes them in the order of the list it
    is given: on the chunks listed in the order in which their operations
    complete it gives the state reached when all of them have settled and
    the error of the first one to fail.  [indexFiles] passes the chunks in
    array order, one of the possible orders. *)

Definition rowOf (chunk : jsstring) (emb : vector) (metadata : Metadata)
  : NewRow :=
  {| new_content := chunk;
     new_embedding := emb;
     new_title := orNull (meta_title metadata);
     new_source := orNull (meta_source metadata);
     new_path := orNull (meta_path metadata) |}.

Fixpoint saveChunksAsEmbeddings (w : Collaborators)
    (textChunks : list jsstring) (metadata : Metadata) (st : State)
  : State * option Error :=
  match textChunks with
  | [] => (st, None)
  | chunk :: rest =>
      match embeddings_create w chunk with
      | None =>
          let (st', e) := saveChunksAsEmbeddings w rest metadata st in
          (st', Some EmbeddingFailed)
      | Some emb =>
          let row := rowOf chunk emb metadata in
          if insert_error w row then
            let (st', e) :=
              saveChunksAsEmbeddings w rest metadata
                (log st (ErrorInsert chunk)) in
            (st', Some InsertFailed)
          else saveChunksAsEmbeddings w rest metadata (insertRow st row)
      end
  end.

Definition isPdf (w : Collaborators) (file : jsstring) : bool :=
  endsWith (toLowerCase w file) (js ".pdf").

Definition metadataOf (w : Collaborators) (file : jsstring) : Metadata :=
  {| meta_title := path_parse_name w file;
     meta_source := js "pdf";
     meta_path := path_join_docs w file |}.

(** [(pdfData.text || '').trim()] *)
Definition extractedText (t : option jsstring) : jsstring :=
  trim (match t with Some s => s | None => [] end).

(** The [for (const file of files)] loop. *)
Fixpoint indexFiles (w : Collaborators) (files : list jsstring) (st : State)
  : State * option Error :=
  match files with
  | [] => (st, None)
  | file :: rest =>
      if negb (isPdf w file) then indexFiles w rest st
      else
        let fullPath := path_join_docs w file in
        let st1 := log st (LogIndexing fullPath) in
        match pdf_getText w fullPath with
        | None => (st1, Some ExtractionFailed)
        | Some t =>
            let text := extractedText t in
            if isEmpty text then indexFiles w rest (log st1 (WarnNoText file))
            else
              let textChunks := chunkText text in
              match saveChunksAsEmbeddings w textChunks (metadataOf w file)
                      st1 with
              | (st2, None) => indexFiles w rest st2
              | (st2, Some e) => (st2, Some e)
              end
        end
  end.

Definition indexLocalDocs (w : Collaborators) (st : State)
  : State * option Error :=
  if negb (existsSync_docs w) then (st, Some DocsFolderNotFound)
  else indexFiles w (readdirSync_docs w) st.

(** The rows a run has persisted for the document stored at [fullPath]. *)
Definition rowsOf (fullPath : jsstring) (rows : list StoredRow)
  : list StoredRow :=
  filter (fun r => match path r with
                   | Some p => if list_eq_dec N.eq_dec p fullPath
                               then true else false
                   | None => false
                   end) rows.

(** ** The retriever: the SQL function [match_documents] (README, section 4)
       as [processQuery] calls it (lines 147-151) *)

Record Match := {
  match_id : Z;
  match_content : jsstring;
  similarity : Q
}.

(** [a > b] on scores. *)
Definition Qgtb (a b : Q) : bool := negb (Qle_bool a b).

(** [1 - (d.embedding <=> query_embedding)] *)
Definition similarityOf (w : Collaborators) (query_embedding : vector)
    (d : StoredRow) : Q :=
  1 - cosine_distance w (embedding d) query_embedding.

(** [select ... from "MyPDFDocuments" d where ... > match_threshold] *)
Definition selectMatches (w : Collaborators) (rows : list StoredRow)
    (query_embedding : vector) (match_threshold : Q) : list Match :=
  map (fun d => {| match_id := id d;
                   match_content := content d;
                   similarity := similarityOf w query_embedding d |})
      (filter (fun d => Qgtb (similarityOf w query_embedding d)
                             match_threshold) rows).

(** [order by similarity desc].  SQL leaves the order of rows with equal
    scores open; this insertion sort keeps them in table order: [m] is put
    before the first row that does not score higher. *)
Fixpoint insertDesc (m : Match) (l : list Match) : list Match :=
  match l with
  | [] => [m]
  | x :: l' =>
      if Qle_bool (similarity x) (similarity m) then m :: l
      else x :: insertDesc m l'
  end.

Definition orderBySimilarityDesc (l : list Match) : list Match :=
  fold_right insertDesc [] l.

Definition match_documents (w : Collaborators) (rows : list StoredRow)
    (query_embedding : vector) (match_threshold : Q) (match_count : nat)
  : list Match :=
  firstn match_count
    (orderBySimilarityDesc
       (selectMatches w rows query_embedding match_threshold)).

(** Any answer SQL allows for the same query: some descending order of the
    selected rows, cut at [match_count]. *)
Definition descending (a b : Match) : Prop :=
  (similarity b <= similarity a)%Q.

Definition match_documents_answer (w : Collaborators)
    (rows : list StoredRow) (query_embedding : vector) (match_threshold : Q)
    (match_count : nat) (data : list Match) : Prop :=
  exists ordered,
    Permutation ordered
      (selectMatches w rows query_embedding match_threshold) /\
    StronglySorted descending ordered /\
    data = firstn match_count ordered.

Definition match_threshold_used : Q := 1 # 2.
Definition match_count_used : nat := 10.

(** ** Context assembly and answer generation: [processQuery]
       (lines 135-196) *)

(** [`Chunk ${idx + 1}:\n${row.content.trim()}\n\n`] *)
Definition chunkSection (idx : nat) (row : Match) : jsstring :=
  js "Chunk " ++ decimal (idx + 1) ++ js ":" ++ [LF] ++
  trim (match_content row) ++ [LF; LF].

(** [data.forEach((row, idx) => { context += ... })] from index [idx]. *)
Fixpoint forEachRow (data : list Match) (idx : nat) (context : jsstring)
  : jsstring :=
  match data with
  | [] => context
  | row :: rest => forEachRow rest (S idx) (context ++ chunkSection idx row)
  end.

Definition noContext : jsstring := js "No relevant context found.".

Definition buildContext (data : list Match) : jsstring :=
  let context := forEachRow data 0%nat [] in
  if isEmpty context then noContext else context.

Definition systemContent : jsstring :=
  js "You are a representative that is very helpful, Only ever answer" ++
  [LF] ++ js "    truthfully and be as helpful as you can!".

(** [`Context:\n${context}\n\nQuestion: ${query}\n\nAnswer clearly and
    concisely.`] *)
Definition userContent (context query : jsstring) : jsstring :=
  js "Context:" ++ [LF] ++ context ++ [LF; LF] ++
  js "Question: " ++ query ++ [LF; LF] ++
  js "Answer clearly and concisely.".

Definition chatRequest (context query : jsstring) : ChatRequest :=
  {| model := js "gpt-4.1-mini";
     messages :=
       [ {| role := js "system"; message_content := systemContent |};
         {| role := js "user";
            message_content := userContent context query |} ];
     temperature := 1 # 2;
     max_tokens := 500 |}.

(** The calls made to the external services, in order. *)
Inductive Call :=
| CallEmbedding (input : jsstring)
| CallMatchDocuments (query_embedding : vector) (match_threshold : Q)
    (match_count : nat)
| CallChat (request : ChatRequest).

Definition processQuery (w : Collaborators) (rows : list StoredRow)
    (query : jsstring) : list Call * (Error + jsstring) :=
  let input := replaceNewlines query in
  match embeddings_create w input with
  | None => ([CallEmbedding input], inl EmbeddingFailed)
  | Some emb =>
      let search :=
        CallMatchDocuments emb match_threshold_used match_count_used in
      if rpc_error w then ([CallEmbedding input; search], inl SearchFailed)
      else
        let data :=
          match_documents w rows emb match_threshold_used match_count_used in
        let request := chatRequest (buildContext data) query in
        match chat_completions_create w request with
        | None =>
            ([CallEmbedding input; search; CallChat request],
             inl GenerationFailed)
        | Some answer =>
            ([CallEmbedding input; search; CallChat request], inr answer)
        end
  end.

(** What the retriever hands to context assembly for a query: the [data] of
    a search that reported no error. *)
Definition retrieve (w : Collaborators) (rows : list StoredRow)
    (query : jsstring) : option (list Match) :=
  match embeddings_create w (replaceNewlines query) with
  | None => None
  | Some emb =>
      if rpc_error w then None
      else Some (match_documents w rows emb
                   match_threshold_used match_count_used)
  end.

(** ** The query route: [POST /query] (lines 200-215) *)

(** The value of a property of the parsed body. *)
Inductive jsvalue :=
| JUndefined                (* the property is missing *)
| JNull
| JBool (b : bool)
| JNumber (n : Q)
| JString (s : jsstring)
| JObject.                  (* an object or an array *)

(** [!v] *)
Definition falsy (v : jsvalue) : bool :=
  match v with
  | JUndefined | JNull => true
  | JBool b => negb b
  | JNumber n => Qeq_bool n 0
  | JString s => isEmpty s
  | JObject => false
  end.

Inductive ResponseBody :=
| ErrorBody (error : jsstring)
| AnswerBody (answer : jsstring).

Record Response := { status : Z; body : ResponseBody }.

(** [req.body].  The body parsers leave it undefined when the request
    carries no JSON or urlencoded body (Express 5); otherwise it is the
    parsed object or array, of which the handler reads the [query] property
    only ([JUndefined] when the property is absent). *)
Inductive RequestBody :=
| BodyUndefined
| BodyParsed (query : jsvalue).

(** The statements of the [try] block, all of them inside it; whatever they
    throw is answered by the [catch] with status 500. *)
Definition queryRoute (w : Collaborators) (rows : list StoredRow)
    (reqBody : RequestBody) : list Call * Response :=
  match reqBody with
  | BodyUndefined =>
      (* [const { query } = req.body] throws a TypeError *)
      ([], {| status := 500;
              body := ErrorBody (js "Internal Server Error") |})
  | BodyParsed query =>
      if falsy query then
        ([], {| status := 400; body := ErrorBody (js "Query is required") |})
      else
        match query with
        | JString s =>
            if isEmpty (trim s) then
              ([], {| status := 400;
                      body := ErrorBody (js "Query is required") |})
            else
              match processQuery w rows s with
              | (calls, inr answer) =>
                  (calls, {| status := 200; body := AnswerBody answer |})
              | (calls, inl _) =>
                  (calls,
                   {| status := 500;
                      body := ErrorBody (js "Internal Server Error") |})
              end
        | _ =>
            (* [query.trim] is not a function: the TypeError is caught *)
            ([], {| status := 500;
                    body := ErrorBody (js "Internal Server Error") |})
        end
  end.

(** ** Predicates and closed forms used in the statements *)

(** White space occurs in [s] only as the space character. *)
Definition onlySpaces (s : jsstring) : Prop :=
  Forall (fun c => isWhiteSpace c = true -> c = SPACE) s.

(** No two neighbouring code units of [s] are both white space. *)
Fixpoint noAdjacentWhiteSpace (s : jsstring) : Prop :=
  match s with
  | a :: s' =>
      match s' with
      | b :: _ => isWhiteSpace a && isWhiteSpace b = false
      | [] => True
      end /\ noAdjacentWhiteSpace s'
  | [] => True
  end.

Definition wellFormedChunk (chunk : jsstring) : Prop :=
  trim chunk <> [] /\ onlySpaces chunk /\ noAdjacentWhiteSpace chunk.

(** Number of iterations of the loop on a text of length [len] with a
    positive stride, and the span cut by iteration [k]. *)
Definition iterations (len stride : Z) : nat :=
  Z.to_nat ((len + stride - 1) / stride).

Definition spanAt (cleanText : jsstring) (chunkSize stride : Z) (k : nat)
  : Z * jsstring :=
  (Z.of_nat k * stride,
   substring cleanText (Z.of_nat k * stride) (Z.of_nat k * stride + chunkSize)).

Definition keptSpans (cleanText : jsstring) (chunkSize stride : Z)
    (from count : nat) : list (Z * jsstring) :=
  filter (fun sp => keepChunk (snd sp))
         (map (spanAt cleanText chunkSize stride) (seq from count)).

(** The embedding or the insert of [chunk] fails. *)
Definition chunkFails (w : Collaborators) (metadata : Metadata)
    (chunk : jsstring) : bool :=
  match embeddings_create w chunk with
  | None => true
  | Some emb => insert_error w (rowOf chunk emb metadata)
  end.

(** The text is empty or holds white space only. *)
Definition blank (s : jsstring) : bool := forallb isWhiteSpace s.

(** The section of the context for the match of rank [i] (counted from 1),
    in the words of the specification: "Chunk {i}:\n{content}\n\n" with the
    content trimmed. *)
Definition labeledSection (i : nat) (content : jsstring) : jsstring :=
  js "Chunk " ++ decimal i ++ js ":" ++ [LF] ++ trim content ++ [LF; LF].

Definition rankedSections (data : list Match) : jsstring :=
  List.concat (map (fun p => labeledSection (fst p) (match_content (snd p)))
              (combine (seq 1 (List.length data)) data)).

Definition badRequest : Response :=
  {| status := 400; body := ErrorBody (js "Query is required") |}.

(** The response the route builds from the outcome of [processQuery]. *)
Definition responseOf (r : Error + jsstring) : Response :=
  match r with
  | inr answer => {| status := 200; body := AnswerBody answer |}
  | inl _ => {| status := 500; body := ErrorBody (js "Internal Server Error") |}
  end.

(** ** A small world for examples

    Two documents, "a.pdf" with text "x" and "b.pdf" with text "y"; the
    embedding service fails on the chunk "x" and on nothing else. *)

Definition asciiLower (s : jsstring) : jsstring :=
  map (fun c => if ((65 <=? c) && (c <=? 90))%N then (c + 32)%N else c) s.

Definition jsstring_eqb (a b : jsstring) : bool :=
  if list_eq_dec N.eq_dec a b then true else false.

Definition exampleWorld : Collaborators :=
  {| existsSync_docs := true;
     readdirSync_docs := [js "a.pdf"; js "notes.txt"; js "b.pdf"];
     toLowerCase := asciiLower;
     path_join_docs := fun file => js "MyDocs/" ++ file;
     path_parse_name := fun file => firstn (List.length file - 4) file;
     pdf_getText := fun fullPath =>
       if jsstring_eqb fullPath (js "MyDocs/a.pdf") then Some (Some (js "x"))
       else if jsstring_eqb fullPath (js "MyDocs/b.pdf")
            then Some (Some (js " y "))
            else Some None;
     embeddings_create := fun input =>
       if jsstring_eqb input (js "x") then None else Some [1%Q; 0%Q];
     insert_error := fun _ => false;
     cosine_distance := fun _ _ => 0%Q;
     rpc_error := false;
     chat_completions_create := fun _ => Some (js "ok") |}.

Definition emptyState : State := {| table := []; console := [] |}.

Definition rowY : StoredRow :=
  {| id := 1; content := js "y"; embedding := [1%Q; 0%Q];
     title := Some (js "b"); source := Some (js "pdf");
     path := Some (js "MyDocs/b.pdf") |}.

(** A second world, for the retriever: a stored vector is a one-element
    list that holds its distance to any query. *)
Definition scoreWorld : Collaborators :=
  {| existsSync_docs := true;
     readdirSync_docs := [];
     toLowerCase := asciiLower;
     path_join_docs := fun file => js "MyDocs/" ++ file;
     path_parse_name := fun file => file;
     pdf_getText := fun _ => Some None;
     embeddings_create := fun _ => Some [];
     insert_error := fun _ => false;
     cosine_distance := fun v _ => hd 2%Q v;
     rpc_error := false;
     chat_completions_create := fun _ => Some (js "ok") |}.

Definition scoreRow (i : Z) (distance : Q) : StoredRow :=
  {| id := i; content := js "chunk"; embedding := [distance];
     title := None; source := None; path := None |}.

(** Thirteen rows; row 3 scores exactly 0.5 and row 5 scores 0.2. *)
Definition scoreRows : list StoredRow :=
  [ scoreRow 1 (40 # 100); scoreRow 2 (10 # 100); scoreRow 3 (50 # 100);
    scoreRow 4 (30 # 100); scoreRow 5 (80 # 100); scoreRow 6 (5 # 100);
    scoreRow 7 (45 # 100); scoreRow 8 (20 # 100); scoreRow 9 (35 # 100);
    scoreRow 10 (15 # 100); scoreRow 11 (25 # 100); scoreRow 12 (1 # 100);
    scoreRow 13 (49 # 100) ].

(** ** The indexing route: [POST /index-docs] (lines 120-130)

    [details] stands for [error.message]; the three [console.error] lines of
    the handler are kept apart from the console of the indexer. *)

Inductive IndexBody :=
| IndexMessage (message : jsstring)
| IndexFailure (error : jsstring) (details : Error).

Record IndexResponse := { index_status : Z; index_body : IndexBody }.

Definition indexRoute (w : Collaborators) (st : State)
  : State * list (jsstring * Error) * IndexResponse :=
  match indexLocalDocs w st with
  | (st', None) =>
      (st', [],
       {| index_status := 200;
          index_body :=
            IndexMessage
              (js "Indexed all PDFs from MyDocs folder into Supabase.") |})
  | (st', Some e) =>
      (st',
       [(js "Error indexing local docs:", e);
        (js "Error details:", e);
        (js "Stack trace:", e)],
       {| index_status := 500;
          index_body := IndexFailure (js "Failed to index local docs") e |})
  end.

(** ** Further notions used in the statements *)

(** A stored row without its serial id. *)
Definition stripId (r : StoredRow) : NewRow :=
  {| new_content := content r;
     new_embedding := embedding r;
     new_title := title r;
     new_source := source r;
     new_path := path r |}.

(** Putting the chunks back together: the first chunk, then every later
    chunk without its first [chunkOverlap] characters. *)
Definition reassemble (chunkOverlap : Z) (chunks : list jsstring) : jsstring :=
  match chunks with
  | [] => []
  | first :: rest =>
      first ++ List.concat (map (skipn (Z.to_nat chunkOverlap)) rest)
  end.

(** The rows that the chunks of one document leave in the table: one per
    chunk whose embedding and insert both succeed, in array order. *)
Definition savedRows (w : Collaborators) (metadata : Metadata)
    (chunks : list jsstring) : list NewRow :=
  flat_map (fun chunk =>
              match embeddings_create w chunk with
              | Some emb =>
                  if insert_error w (rowOf chunk emb metadata) then []
                  else [rowOf chunk emb metadata]
              | None => []
              end) chunks.

(** A run has the effect [(rows, events, err)] when, from every state, it
    ends with [err], appends rows that are [rows] up to their serial ids,
    and appends [events] to the console. *)
Definition hasEffect (run : State -> State * option Error)
    (rows : list NewRow) (events : list ConsoleEvent) (err : option Error)
  : Prop :=
  forall st,
    snd (run st) = err /\
    console (fst (run st)) = console st ++ events /\
    exists stored,
      table (fst (run st)) = table st ++ stored /\
      map stripId stored = rows.

(** What folder indexing guarantees of a row it adds for the files of a
    listing. *)
Definition indexedRow (w : Collaborators) (files : list jsstring)
    (r : NewRow) : Prop :=
  new_source r = Some (js "pdf") /\
  wellFormedChunk (new_content r) /\
  JS.length (new_content r) <= defaultChunkSize /\
  exists file,
    In file files /\ isPdf w file = true /\
    new_title r = orNull (path_parse_name w file) /\
    new_path r = orNull (path_join_docs w file).

(** Every chunk of every PDF of the listing has a row among [rows]. *)
Definition allIndexed (w : Collaborators) (files : list jsstring)
    (rows : list NewRow) : Prop :=
  forall file,
    In file files -> isPdf w file = true ->
    exists t,
      pdf_getText w (path_join_docs w file) = Some t /\
      forall chunk,
        In chunk (chunkText (extractedText t)) ->
        exists emb,
          embeddings_create w chunk = Some emb /\
          In (rowOf chunk emb (metadataOf w file)) rows.

Definition internalError : Response :=
  {| status := 500; body := ErrorBody (js "Internal Server Error") |}.

(** The example world with "a.pdf" taken out of the folder: every call
    succeeds. *)
Definition quietWorld : Collaborators :=
  {| existsSync_docs := true;
     readdirSync_docs := [js "notes.txt"; js "b.pdf"];
     toLowerCase := toLowerCase exampleWorld;
     path_join_docs := path_join_docs exampleWorld;
     path_parse_name := path_parse_name exampleWorld;
     pdf_getText := pdf_getText exampleWorld;
     embeddings_create := embeddings_create exampleWorld;
     insert_error := insert_error exampleWorld;
     cosine_distance := cosine_distance exampleWorld;
     rpc_error := rpc_error exampleWorld;
     chat_completions_create := chat_completions_create exampleWorld |}.

(** * Facts about the string built-ins *)

Example substring_swaps : substring (js "abcdef") 4 2 = js "cd".
Proof. reflexivity. Qed.

Example substring_clamps : substring (js "abc") (-3) 7 = js "abc".
Proof. reflexivity. Qed.

Example cleanText_collapses :
  cleanText ([9; 10] ++ js "ab" ++ [13; 10; 160] ++ js "cd  e ")%N
  = js "ab cd e".
Proof. reflexivity. Qed.

Example decimal_12 : decimal 12 = js "12".
Proof. reflexivity. Qed.

Example endsWith_pdf :
  endsWith (js "report.pdf") (js ".pdf") = true /\
  endsWith (js "pdf") (js ".pdf") = false.
Proof. split; reflexivity. Qed.

Example chunkText_three_chunks :
  chunkText_fuel 4 (js "  ab   cd" ++ [LF] ++ js " ef ") 4 1
  = Some [js "ab c"; js "cd e"; js "ef"].
Proof. reflexivity. Qed.

Lemma dropWhile_skipn p s : exists k, dropWhile p s = skipn k s.
Proof.
  induction s as [|c s IH]; simpl.
  - exists 0%nat. reflexivity.
  - destruct (p c).
    + destruct IH as [k Hk]. exists (S k). exact Hk.
    + exists 0%nat. reflexivity.
Qed.

Lemma In_dropWhile p s c : In c s -> p c = false -> In c (dropWhile p s).
Proof.
  induction s as [|a s IH]; simpl; intros H Hp; [contradiction|].
  destruct H as [->|H].
  - rewrite Hp. left. reflexivity.
  - destruct (p a); [apply IH; assumption | right; assumption].
Qed.

Lemma dropWhile_head p s c s' : dropWhile p s = c :: s' -> p c = false.
Proof.
  induction s as [|a s IH]; simpl; [discriminate|].
  destruct (p a) eqn:E; [exact IH|].
  intros H. injection H as -> _. exact E.
Qed.

Lemma trimEnd_firstn s : exists k, trimEnd s = firstn k s.
Proof.
  unfold trimEnd.
  destruct (dropWhile_skipn isWhiteSpace (rev s)) as [k Hk].
  rewrite Hk, skipn_rev, rev_involutive.
  eexists. reflexivity.
Qed.

Lemma trim_firstn_skipn s : exists k1 k2, trim s = firstn k2 (skipn k1 s).
Proof.
  unfold trim, trimStart.
  destruct (dropWhile_skipn isWhiteSpace s) as [k1 H1].
  destruct (trimEnd_firstn (dropWhile isWhiteSpace s)) as [k2 H2].
  exists k1, k2. rewrite H2, H1. reflexivity.
Qed.

Lemma In_trim s c : In c s -> isWhiteSpace c = false -> In c (trim s).
Proof.
  intros H Hc. unfold trim, trimEnd, trimStart.
  rewrite <- in_rev. apply In_dropWhile; [|exact Hc].
  rewrite <- in_rev. apply In_dropWhile; assumption.
Qed.

Lemma trimEnd_last s :
  trimEnd s <> [] ->
  exists s' c, trimEnd s = s' ++ [c] /\ isWhiteSpace c = false.
Proof.
  unfold trimEnd. intros H.
  destruct (dropWhile isWhiteSpace (rev s)) as [|c r] eqn:E.
  - contradiction H. reflexivity.
  - exists (rev r), c. split; [reflexivity|].
    eapply dropWhile_head. exact E.
Qed.

Lemma keepChunk_true chunk c :
  In c chunk -> isWhiteSpace c = false -> keepChunk chunk = true.
Proof.
  intros H Hc. unfold keepChunk, JS.length.
  apply In_trim in H; [|exact Hc].
  destruct (trim chunk); [contradiction|].
  simpl List.length. apply Z.ltb_lt. lia.
Qed.

Lemma keepChunk_trim chunk : keepChunk chunk = true <-> trim chunk <> [].
Proof.
  unfold keepChunk, JS.length. destruct (trim chunk); simpl List.length.
  - split; [discriminate | intros H; contradiction H; reflexivity].
  - split; [discriminate | intros _; apply Z.ltb_lt; lia].
Qed.

(** Normal form of the cleaned text. *)

Lemma onlySpaces_collapseRuns b s : onlySpaces (collapseRuns b s).
Proof.
  revert b. induction s as [|c s IH]; intros b; simpl.
  - constructor.
  - destruct (isWhiteSpace c) eqn:E.
    + destruct b; [apply IH|]. constructor; [reflexivity | apply IH].
    + constructor; [|apply IH]. rewrite E. discriminate.
Qed.

Lemma collapseRuns_true_head s c r :
  collapseRuns true s = c :: r -> isWhiteSpace c = false.
Proof.
  induction s as [|a s IH]; simpl; [discriminate|].
  destruct (isWhiteSpace a) eqn:E; [exact IH|].
  intros H. injection H as <- _. exact E.
Qed.

Lemma noAdjacent_collapseRuns b s : noAdjacentWhiteSpace (collapseRuns b s).
Proof.
  revert b. induction s as [|c s IH]; intros b; simpl; [exact I|].
  destruct (isWhiteSpace c) eqn:E.
  - destruct b; [apply IH|]. simpl. split; [|apply IH].
    destruct (collapseRuns true s) as [|x r] eqn:Er; [exact I|].
    apply collapseRuns_true_head in Er. simpl. exact Er.
  - simpl. split; [|apply IH].
    destruct (collapseRuns false s); [exact I|]. rewrite E. reflexivity.
Qed.

Lemma onlySpaces_skipn k s : onlySpaces s -> onlySpaces (skipn k s).
Proof.
  unfold onlySpaces. revert s.
  induction k as [|k IH]; intros [|c s] H; simpl; trivial.
  apply IH. inversion H; assumption.
Qed.

Lemma onlySpaces_firstn k s : onlySpaces s -> onlySpaces (firstn k s).
Proof.
  unfold onlySpaces. revert s.
  induction k as [|k IH]; intros [|c s] H; simpl; trivial.
  inversion H; subst. constructor; [assumption | apply IH; assumption].
Qed.

Lemma noAdjacent_skipn k s :
  noAdjacentWhiteSpace s -> noAdjacentWhiteSpace (skipn k s).
Proof.
  revert s. induction k as [|k IH]; intros [|c s] H; simpl; trivial.
  apply IH. destruct H as [_ H]. exact H.
Qed.

Lemma noAdjacent_firstn k s :
  noAdjacentWhiteSpace s -> noAdjacentWhiteSpace (firstn k s).
Proof.
  revert s. induction k as [|k IH]; intros [|c s] H; simpl; trivial.
  destruct H as [H1 H2]. split; [|apply IH; exact H2].
  destruct k, s; simpl; trivial.
Qed.

Lemma onlySpaces_cleanText text : onlySpaces (cleanText text).
Proof.
  unfold cleanText.
  destruct (trim_firstn_skipn (replaceWhiteSpaceRuns text)) as (k1 & k2 & ->).
  apply onlySpaces_firstn, onlySpaces_skipn, onlySpaces_collapseRuns.
Qed.

Lemma noAdjacent_cleanText text : noAdjacentWhiteSpace (cleanText text).
Proof.
  unfold cleanText.
  destruct (trim_firstn_skipn (replaceWhiteSpaceRuns text)) as (k1 & k2 & ->).
  apply noAdjacent_firstn, noAdjacent_skipn, noAdjacent_collapseRuns.
Qed.

Lemma cleanText_last text :
  cleanText text <> [] ->
  exists s' c, cleanText text = s' ++ [c] /\ isWhiteSpace c = false.
Proof. unfold cleanText, trim. apply trimEnd_last. Qed.

Lemma length_collapseRuns b s :
  (List.length (collapseRuns b s) <= List.length s)%nat.
Proof.
  revert b. induction s as [|c s IH]; intros b; simpl; [lia|].
  pose proof (IH true). pose proof (IH false).
  destruct (isWhiteSpace c); [destruct b|]; simpl; lia.
Qed.

(** [substring] on a window that starts inside the non-negative indices. *)
Lemma substring_window s a n :
  0 <= a -> 0 <= n ->
  substring s a (a + n) = firstn (Z.to_nat n) (skipn (Z.to_nat a) s).
Proof.
  intros Ha Hn. unfold substring, clamp, JS.length.
  set (len := List.length s).
  destruct (Z_le_gt_dec a (Z.of_nat len)) as [Hle|Hgt].
  - replace (Z.min (Z.min (Z.max a 0) (Z.of_nat len))
                   (Z.min (Z.max (a + n) 0) (Z.of_nat len))) with a by lia.
    destruct (Z_le_gt_dec (a + n) (Z.of_nat len)) as [Hb|Hb].
    + f_equal. lia.
    + rewrite !firstn_all2; trivial; rewrite length_skipn; fold len; lia.
  - rewrite (skipn_all2 (n := Z.to_nat a)) by (fold len; lia).
    rewrite firstn_nil.
    replace (Z.max _ _ - Z.min _ _) with 0 by lia.
    reflexivity.
Qed.

(** * The chunking loop *)

Lemma chunkLoop_spans fuel T cs co i spans :
  chunkLoop fuel T cs co i (map snd spans) =
  option_map (map snd) (chunkLoopAt fuel T cs co i spans).
Proof.
  revert i spans. induction fuel as [|fuel IH]; intros i spans; simpl.
  - reflexivity.
  - destruct (i <? JS.length T); [|reflexivity].
    destruct (keepChunk (substring T i (i + cs))).
    + rewrite <- IH, map_app. reflexivity.
    + apply IH.
Qed.

Lemma chunkText_spans fuel text cs co :
  chunkText_fuel fuel text cs co =
  option_map (map snd) (chunkSpans_fuel fuel text cs co).
Proof. apply (chunkLoop_spans fuel (cleanText text) cs co 0 []). Qed.

(** More fuel does not change a result. *)
Lemma chunkLoop_more_fuel fuel fuel' T cs co i acc r :
  chunkLoop fuel T cs co i acc = Some r -> (fuel <= fuel')%nat ->
  chunkLoop fuel' T cs co i acc = Some r.
Proof.
  revert fuel' i acc. induction fuel as [|fuel IH]; intros fuel' i acc H Hle.
  - discriminate.
  - destruct fuel' as [|fuel']; [lia|]. simpl in *.
    destruct (i <? JS.length T); [|exact H].
    apply IH; [exact H | lia].
Qed.

Lemma chunkText_returns_unique text cs co r1 r2 :
  chunkText_returns text cs co r1 -> chunkText_returns text cs co r2 ->
  r1 = r2.
Proof.
  intros [f1 H1] [f2 H2]. unfold chunkText_fuel in *.
  apply chunkLoop_more_fuel with (fuel' := Nat.max f1 f2) in H1; [|lia].
  apply chunkLoop_more_fuel with (fuel' := Nat.max f1 f2) in H2; [|lia].
  congruence.
Qed.

(** With a stride that is not positive the index never reaches the length
    of a non-empty text. *)
Lemma chunkLoop_stuck fuel T cs co i acc :
  cs <= co -> i <= 0 -> T <> [] -> chunkLoop fuel T cs co i acc = None.
Proof.
  intros Hs Hi HT. revert i acc Hi.
  induction fuel as [|fuel IH]; intros i acc Hi; simpl; [reflexivity|].
  assert (Hlt : (i <? JS.length T) = true).
  { apply Z.ltb_lt. unfold JS.length. destruct T; [congruence|].
    simpl List.length. lia. }
  rewrite Hlt. apply IH. lia.
Qed.

Lemma iterations_spec len stride j :
  0 < stride -> 0 <= len ->
  ((j < iterations len stride)%nat) <-> (Z.of_nat j * stride < len).
Proof.
  intros Hs Hl. unfold iterations.
  pose proof (Z.div_mod (len + stride - 1) stride ltac:(lia)) as Hd.
  pose proof (Z.mod_pos_bound (len + stride - 1) stride Hs) as Hm.
  set (q := (len + stride - 1) / stride) in *.
  assert (0 <= q) by (apply Z.div_pos; lia).
  split; intros H0.
  - assert (Z.of_nat j + 1 <= q) by lia. nia.
  - assert (Z.of_nat j < q) by nia. lia.
Qed.

Lemma iterations_le_length len stride :
  0 < stride -> 0 <= len -> Z.of_nat (iterations len stride) <= len.
Proof.
  intros Hs Hl.
  destruct (iterations len stride) as [|n] eqn:E; [lia|].
  assert (Hn : (n < iterations len stride)%nat) by lia.
  apply iterations_spec in Hn; trivial. nia.
Qed.

(** Closed form of the loop for a positive stride. *)
Lemma chunkLoopAt_closed T cs co :
  0 < cs - co ->
  forall fuel j spans,
    (iterations (JS.length T) (cs - co) - j < fuel)%nat ->
    chunkLoopAt fuel T cs co (Z.of_nat j * (cs - co)) spans =
    Some (spans ++ keptSpans T cs (cs - co) j
                     (iterations (JS.length T) (cs - co) - j)).
Proof.
  intros Hs. set (n := iterations (JS.length T) (cs - co)).
  assert (HL : 0 <= JS.length T) by (unfold JS.length; lia).
  induction fuel as [|fuel IH]; intros j spans Hf; [lia|].
  simpl.
  destruct (Z.of_nat j * (cs - co) <? JS.length T) eqn:E.
  - apply Z.ltb_lt in E. apply iterations_spec in E; trivial. fold n in E.
    replace (Z.of_nat j * (cs - co) + (cs - co))
      with (Z.of_nat (S j) * (cs - co)) by lia.
    rewrite IH by lia.
    replace (n - j)%nat with (S (n - S j)) by lia.
    unfold keptSpans. simpl seq. simpl map. simpl filter.
    unfold spanAt at 2. simpl snd.
    destruct (keepChunk _).
    + rewrite <- app_assoc. reflexivity.
    + reflexivity.
  - apply Z.ltb_ge in E.
    assert (~ (j < n)%nat).
    { intros Hj. apply iterations_spec in Hj; trivial. lia. }
    replace (n - j)%nat with 0%nat by lia.
    unfold keptSpans. simpl. rewrite app_nil_r. reflexivity.
Qed.

Lemma chunkSpans_closed text cs co fuel :
  co < cs -> (List.length (cleanText text) < fuel)%nat ->
  chunkSpans_fuel fuel text cs co =
  Some (keptSpans (cleanText text) cs (cs - co) 0
          (iterations (JS.length (cleanText text)) (cs - co))).
Proof.
  intros Hs Hf. unfold chunkSpans_fuel.
  pose proof (iterations_le_length (JS.length (cleanText text)) (cs - co)
                ltac:(lia) ltac:(unfold JS.length; lia)) as Hn.
  unfold JS.length in Hn at 2.
  pose proof (chunkLoopAt_closed (cleanText text) cs co ltac:(lia)
                fuel 0%nat []) as H.
  rewrite Nat.sub_0_r in H. simpl in H. apply H. lia.
Qed.

Lemma chunkText_closed text cs co fuel :
  co < cs -> (List.length (cleanText text) < fuel)%nat ->
  chunkText_fuel fuel text cs co =
  Some (map snd (keptSpans (cleanText text) cs (cs - co) 0
          (iterations (JS.length (cleanText text)) (cs - co)))).
Proof.
  intros Hs Hf. rewrite chunkText_spans, chunkSpans_closed by assumption.
  reflexivity.
Qed.

(** Windows of the cleaned text that are kept by the loop. *)

Lemma keepChunk_tail text a n :
  (a < List.length (cleanText text))%nat ->
  (List.length (cleanText text) <= a + n)%nat ->
  keepChunk (firstn n (skipn a (cleanText text))) = true.
Proof.
  intros Ha Hn.
  destruct (cleanText_last text) as (s' & c & HT & Hc).
  { intros E. rewrite E in Ha. simpl in Ha. lia. }
  rewrite firstn_all2 by (rewrite length_skipn; lia).
  apply keepChunk_true with (c := c); [|exact Hc].
  rewrite HT in *. rewrite length_app in Ha. simpl in Ha.
  rewrite skipn_app. apply in_or_app. right.
  replace (a - List.length s')%nat with 0%nat by lia. left. reflexivity.
Qed.

Lemma keepChunk_window text a n :
  (a < List.length (cleanText text))%nat -> (2 <= n)%nat ->
  keepChunk (firstn n (skipn a (cleanText text))) = true.
Proof.
  intros Ha Hn.
  pose proof (noAdjacent_skipn a _ (noAdjacent_cleanText text)) as Hadj.
  pose proof (length_skipn a (cleanText text)) as Hlen.
  destruct (skipn a (cleanText text)) as [|c1 [|c2 w]] eqn:E.
  - simpl in Hlen. lia.
  - rewrite <- E. apply keepChunk_tail; [exact Ha|]. simpl in Hlen. lia.
  - destruct n as [|[|n]]; try lia. simpl firstn.
    destruct Hadj as [Hadj _].
    destruct (isWhiteSpace c1) eqn:E1.
    + apply keepChunk_true with (c := c2); [right; left; reflexivity|].
      exact Hadj.
    + apply keepChunk_true with (c := c1); [left; reflexivity | exact E1].
Qed.

Lemma spanAt_window T cs stride k :
  0 <= cs -> 0 <= stride ->
  snd (spanAt T cs stride k) =
  firstn (Z.to_nat cs) (skipn (k * Z.to_nat stride) T).
Proof.
  intros Hc Hs. unfold spanAt. simpl snd.
  rewrite substring_window by lia. do 2 f_equal. nia.
Qed.

Lemma keptSpans_cons T cs stride j n :
  keptSpans T cs stride j (S n) =
  (if keepChunk (snd (spanAt T cs stride j))
   then [spanAt T cs stride j] else []) ++
  keptSpans T cs stride (S j) n.
Proof.
  unfold keptSpans. cbn [seq map filter].
  destruct (keepChunk (snd (spanAt T cs stride j))); reflexivity.
Qed.

Lemma keptSpans_In T cs stride j n sp :
  In sp (keptSpans T cs stride j n) <->
  exists k, (j <= k < j + n)%nat /\ sp = spanAt T cs stride k /\
            keepChunk (snd sp) = true.
Proof.
  unfold keptSpans. rewrite filter_In, in_map_iff. split.
  - intros [(k & <- & Hk) Hkeep]. apply in_seq in Hk. exists k. auto.
  - intros (k & Hk & -> & Hkeep). split; [|exact Hkeep].
    exists k. split; [reflexivity | apply in_seq; exact Hk].
Qed.

(** From chunk size 2 on, no span of a cleaned text is dropped. *)
Lemma keptSpans_all text cs stride j n :
  2 <= cs -> 0 < stride ->
  (j + n <= iterations (JS.length (cleanText text)) stride)%nat ->
  keptSpans (cleanText text) cs stride j n =
  map (spanAt (cleanText text) cs stride) (seq j n).
Proof.
  intros Hc Hs. revert j. induction n as [|n IH]; intros j Hj.
  - reflexivity.
  - rewrite keptSpans_cons, IH by lia. cbn [seq map].
    rewrite spanAt_window by lia.
    rewrite keepChunk_window; [reflexivity| |lia].
    assert (Hlt : (j < iterations (JS.length (cleanText text)) stride)%nat)
      by lia.
    apply iterations_spec in Hlt; [|lia|unfold JS.length; lia].
    unfold JS.length in Hlt. nia.
Qed.

(** * The chunker: statements of the specification *)

(** C2, as amended.  [chunkText] does not validate its parameters.  When
    [chunkOverlap < chunkSize] (or the cleaned text is empty) the call
    returns a finite list of chunks, within [length cleanText + 1] tests of
    the loop condition; when [chunkOverlap >= chunkSize] and the cleaned text
    is not empty the call never returns, whatever the fuel. *)
Theorem chunkText_termination text cs co :
  (co < cs \/ cleanText text = [] ->
   exists chunks, forall fuel,
     (List.length (cleanText text) < fuel)%nat ->
     chunkText_fuel fuel text cs co = Some chunks) /\
  (cs <= co /\ cleanText text <> [] ->
   forall fuel, chunkText_fuel fuel text cs co = None).
Proof.
  split.
  - intros [H|H].
    + eexists. intros fuel Hf. apply chunkText_closed; assumption.
    + exists []. intros fuel Hf. unfold chunkText_fuel. rewrite H in *.
      destruct fuel; [simpl in Hf; lia | reflexivity].
  - intros [H HT] fuel. apply chunkLoop_stuck; [exact H | lia | exact HT].
Qed.

Lemma chunkText_termination_witness :
  (exists chunks, forall fuel,
     (List.length (cleanText (js "ab cd")) < fuel)%nat ->
     chunkText_fuel fuel (js "ab cd") 4 1 = Some chunks) /\
  (forall fuel, chunkText_fuel fuel (js "a") 1 1 = None).
Proof.
  split.
  - apply (proj1 (chunkText_termination (js "ab cd") 4 1)). left. lia.
  - apply (proj2 (chunkText_termination (js "a") 1 1)).
    split; [lia | discriminate].
Defined.

(** C2 as stated fails: with [chunkOverlap = chunkSize] the call on a
    one-letter text is not rejected and never returns. *)
Lemma chunkText_no_validation :
  ~ exists fuel chunks,
      chunkText_fuel fuel (js "a") defaultChunkSize defaultChunkSize
      = Some chunks.
Proof.
  intros (fuel & chunks & H). unfold chunkText_fuel in H.
  rewrite chunkLoop_stuck in H; [discriminate | | |].
  - unfold defaultChunkSize. lia.
  - lia.
  - discriminate.
Qed.

(** The fuel that [chunkText] gives the loop is enough. *)
Lemma chunkText_fuel_enough text :
  chunkText_fuel (S (List.length (cleanText text))) text
    defaultChunkSize defaultChunkOverlap = Some (chunkText text).
Proof.
  unfold chunkText.
  rewrite chunkText_closed; [reflexivity | reflexivity | lia].
Qed.

Lemma first_span_whole text cs stride :
  cleanText text <> [] -> JS.length (cleanText text) < cs ->
  spanAt (cleanText text) cs stride 0 = (0, cleanText text) /\
  keepChunk (cleanText text) = true.
Proof.
  intros HT HL. unfold JS.length in HL.
  assert (Hpos : (0 < List.length (cleanText text))%nat).
  { destruct (cleanText text); [congruence | simpl; lia]. }
  pose proof (keepChunk_tail text 0 (Z.to_nat cs) Hpos ltac:(lia)) as Hk.
  rewrite skipn_0, firstn_all2 in Hk by lia.
  split; [|exact Hk].
  unfold spanAt. simpl Z.of_nat. rewrite Z.mul_0_l.
  rewrite substring_window by lia.
  simpl Z.to_nat at 2. rewrite skipn_0, firstn_all2 by lia. reflexivity.
Qed.

(** C1, as amended.  When the cleaned text is not empty and shorter than
    [chunkSize] (and [chunkOverlap < chunkSize]), the first chunk returned is
    the whole cleaned text, and it is the only chunk exactly when the
    cleaned text is no longer than the stride [chunkSize - chunkOverlap]. *)
Theorem chunkText_single_chunk text cs co :
  cleanText text <> [] -> JS.length (cleanText text) < cs -> co < cs ->
  (exists rest, chunkText_returns text cs co (cleanText text :: rest)) /\
  (chunkText_returns text cs co [cleanText text] <->
   JS.length (cleanText text) <= cs - co).
Proof.
  intros HT HL Hs.
  set (T := cleanText text) in *.
  set (n := iterations (JS.length T) (cs - co)).
  assert (HL0 : 0 <= JS.length T) by (unfold JS.length; lia).
  assert (Hpos : (0 < List.length T)%nat).
  { destruct T; [congruence | simpl; lia]. }
  assert (Hn : (0 < n)%nat).
  { apply iterations_spec; [lia | lia | unfold JS.length; lia]. }
  destruct (first_span_whole text cs (cs - co) HT HL) as [Hsp Hkeep].
  fold T in Hsp, Hkeep.
  assert (Hret : chunkText_returns text cs co
                   (T :: map snd (keptSpans T cs (cs - co) 1 (n - 1)))).
  { exists (S (List.length T)). unfold T.
    rewrite chunkText_closed by (trivial; lia). fold T. fold n.
    replace n with (S (n - 1)) at 1 by lia.
    rewrite keptSpans_cons, Hsp. simpl snd. rewrite Hkeep. reflexivity. }
  split; [eexists; exact Hret|].
  split.
  - intros H1.
    pose proof (chunkText_returns_unique _ _ _ _ _ H1 Hret) as E.
    injection E as E.
    destruct (Z_le_gt_dec (JS.length T) (cs - co)) as [Hle|Hgt]; trivial.
    exfalso.
    assert (H1n : (1 < n)%nat).
    { apply iterations_spec; [lia | lia | simpl Z.of_nat; lia]. }
    replace (n - 1)%nat with (S (n - 2)) in E by lia.
    rewrite keptSpans_cons, spanAt_window in E by lia.
    unfold T in E at 1.
    rewrite keepChunk_tail in E; [discriminate E| |];
      fold T; unfold JS.length in *; lia.
  - intros Hle.
    assert (H1n : ~ (1 < n)%nat).
    { intros H. apply iterations_spec in H; [|lia|lia].
      simpl Z.of_nat in H. lia. }
    replace (n - 1)%nat with 0%nat in Hret by lia. exact Hret.
Qed.

Lemma chunkText_single_chunk_witness :
  (exists rest,
     chunkText_returns (js " ab  cd ") 8 2 (cleanText (js " ab  cd ") :: rest))
  /\ (chunkText_returns (js " ab  cd ") 8 2 [cleanText (js " ab  cd ")] <->
      JS.length (cleanText (js " ab  cd ")) <= 8 - 2).
Proof.
  apply (chunkText_single_chunk (js " ab  cd ") 8 2).
  - discriminate.
  - reflexivity.
  - reflexivity.
Defined.

(** C1 as stated fails with the default parameters: a text of 900 letters
    is shorter than [chunkSize = 1000], and the loop runs a second time at
    offset 800. *)
Lemma chunkText_short_text_two_chunks :
  cleanText (repeat 97%N 900) <> [] /\
  JS.length (cleanText (repeat 97%N 900)) < defaultChunkSize /\
  chunkText (repeat 97%N 900) = [repeat 97%N 900; repeat 97%N 100] /\
  chunkText_returns (repeat 97%N 900) defaultChunkSize defaultChunkOverlap
    [repeat 97%N 900; repeat 97%N 100].
Proof.
  split; [vm_compute; discriminate|].
  split; [vm_compute; reflexivity|].
  split; [vm_compute; reflexivity|].
  exists 3%nat. vm_compute. reflexivity.
Qed.

Lemma nth_error_window (T : jsstring) a n p c :
  nth_error T p = Some c -> (a <= p < a + n)%nat ->
  nth_error (firstn n (skipn a T)) (p - a) = Some c.
Proof.
  intros H Hp. rewrite nth_error_firstn.
  destruct (Nat.ltb_spec (p - a) n) as [_|Hge]; [|lia].
  rewrite nth_error_skipn. replace (a + (p - a))%nat with p by lia. exact H.
Qed.

(** C4, as amended.  For [0 <= chunkOverlap < chunkSize] and a non-empty
    cleaned text, the call returns; every chunk is the substring cut at its
    offset and has length at most [chunkSize]; every position of the cleaned
    text lies in the range of some returned chunk when [chunkSize >= 2], and
    every position that does not hold a space does so for [chunkSize = 1]. *)
Theorem chunkText_coverage text cs co :
  0 <= co < cs -> cleanText text <> [] ->
  exists spans,
    (forall fuel, (List.length (cleanText text) < fuel)%nat ->
       chunkSpans_fuel fuel text cs co = Some spans /\
       chunkText_fuel fuel text cs co = Some (map snd spans)) /\
    Forall (fun sp =>
              0 <= fst sp /\
              snd sp = substring (cleanText text) (fst sp) (fst sp + cs) /\
              JS.length (snd sp) <= cs) spans /\
    (forall p c,
       nth_error (cleanText text) p = Some c ->
       2 <= cs \/ isWhiteSpace c = false ->
       exists sp, In sp spans /\ covers sp (Z.of_nat p)).
Proof.
  intros Hp HT.
  set (T := cleanText text) in *.
  set (n := iterations (JS.length T) (cs - co)).
  exists (keptSpans T cs (cs - co) 0 n).
  split; [|split].
  - intros fuel Hf. unfold T, n.
    rewrite chunkText_spans, chunkSpans_closed by (trivial; lia).
    split; reflexivity.
  - apply Forall_forall. intros sp Hin.
    apply keptSpans_In in Hin. destruct Hin as (k & _ & -> & _).
    split; [unfold spanAt; simpl fst; nia|].
    split; [reflexivity|].
    rewrite spanAt_window by lia. unfold JS.length.
    rewrite length_firstn. lia.
  - intros p c Hnth Hc.
    set (stn := Z.to_nat (cs - co)).
    assert (Est : cs - co = Z.of_nat stn) by (unfold stn; lia).
    assert (Hst : stn <> 0%nat) by lia.
    set (k := (p / stn)%nat).
    pose proof (Nat.Div0.mul_div_le p stn) as Hlo.
    pose proof (Nat.mul_succ_div_gt p stn Hst) as Hhi.
    fold k in Hlo, Hhi.
    assert (HpL : (p < List.length T)%nat).
    { apply nth_error_Some. congruence. }
    assert (Hk : (k < n)%nat).
    { apply iterations_spec; [lia | unfold JS.length; lia |].
      unfold JS.length. rewrite Est. nia. }
    assert (Hwin : (k * stn <= p < k * stn + Z.to_nat cs)%nat) by nia.
    pose proof (nth_error_window T _ _ p c Hnth Hwin) as Hc'.
    exists (spanAt T cs (cs - co) k). split.
    + apply keptSpans_In. exists k. split; [lia|]. split; [reflexivity|].
      rewrite spanAt_window by lia. fold stn.
      destruct Hc as [Hc|Hc].
      * apply keepChunk_window; [fold T; nia | lia].
      * eapply keepChunk_true; [|exact Hc].
        eapply nth_error_In. exact Hc'.
    + unfold covers. rewrite spanAt_window by lia. fold stn.
      unfold spanAt. simpl fst. unfold JS.length.
      rewrite length_firstn, length_skipn. rewrite Est. nia.
Qed.

Lemma chunkText_coverage_witness :
  exists spans,
    (forall fuel, (List.length (cleanText (js "ab cd ef")) < fuel)%nat ->
       chunkSpans_fuel fuel (js "ab cd ef") 4 1 = Some spans /\
       chunkText_fuel fuel (js "ab cd ef") 4 1 = Some (map snd spans)) /\
    Forall (fun sp =>
              0 <= fst sp /\
              snd sp = substring (cleanText (js "ab cd ef"))
                         (fst sp) (fst sp + 4) /\
              JS.length (snd sp) <= 4) spans /\
    (forall p c,
       nth_error (cleanText (js "ab cd ef")) p = Some c ->
       2 <= 4 \/ isWhiteSpace c = false ->
       exists sp, In sp spans /\ covers sp (Z.of_nat p)).
Proof.
  apply (chunkText_coverage (js "ab cd ef") 4 1).
  - lia.
  - discriminate.
Defined.

(** C4 as stated fails for [chunkSize = 1]: the space of "a b" is cut as a
    chunk of its own and dropped, so position 1 lies in no chunk's range. *)
Lemma chunkText_gap_at_space :
  cleanText (js "a b") = js "a b" /\
  0 < 1 /\
  chunkSpans_fuel 4 (js "a b") 1 0 = Some [(0, js "a"); (2, js "b")] /\
  chunkText_fuel 4 (js "a b") 1 0 = Some [js "a"; js "b"] /\
  ~ exists sp, In sp [(0, js "a"); (2, js "b")] /\ covers sp 1.
Proof.
  repeat (split; [reflexivity|]).
  intros (sp & [<-|[<-|[]]] & [H1 H2]); simpl in *; cbv in H1, H2;
    try discriminate; try (apply H1; reflexivity).
Qed.

(** With a negative overlap the stride exceeds the chunk size and positions
    between two chunks are skipped. *)
Lemma chunkText_gap_negative_overlap :
  chunkSpans_fuel 4 (js "abc") 2 (-1) = Some [(0, js "ab")] /\
  ~ covers (0, js "ab") 2.
Proof.
  split; [reflexivity|]. unfold covers. simpl. cbv. intros [_ H].
  discriminate H.
Qed.

Lemma nth_error_map_seq {A} (f : nat -> A) n k a :
  nth_error (map f (seq 0 n)) k = Some a -> (k < n)%nat /\ a = f k.
Proof.
  rewrite nth_error_map, nth_error_seq.
  destruct (Nat.ltb_spec k n) as [Hk|Hk]; simpl; [|discriminate].
  intros E. injection E as <-. split; [assumption | reflexivity].
Qed.

Lemma chunks_all text cs co :
  1 <= co < cs ->
  map snd (keptSpans (cleanText text) cs (cs - co) 0
             (iterations (JS.length (cleanText text)) (cs - co))) =
  map (fun k => firstn (Z.to_nat cs)
                  (skipn (k * Z.to_nat (cs - co)) (cleanText text)))
      (seq 0 (iterations (JS.length (cleanText text)) (cs - co))).
Proof.
  intros H. rewrite keptSpans_all by lia. rewrite map_map.
  apply map_ext. intros k. apply spanAt_window; lia.
Qed.

(** The overlap of two windows cut one stride apart, the first one whole. *)
Lemma window_overlap (T : jsstring) csn con k :
  (con < csn)%nat ->
  (k * (csn - con) + csn <= List.length T)%nat ->
  lastChars (Z.of_nat con) (firstn csn (skipn (k * (csn - con)) T)) =
  firstChars (Z.of_nat con) (firstn csn (skipn (S k * (csn - con)) T)).
Proof.
  intros Hc Hlen. unfold lastChars, firstChars. rewrite Nat2Z.id.
  rewrite length_firstn, length_skipn.
  replace (Nat.min csn (List.length T - k * (csn - con)) - con)%nat
    with (csn - con)%nat by lia.
  rewrite skipn_firstn_comm, skipn_skipn, firstn_firstn.
  replace (csn - (csn - con))%nat with con by lia.
  replace (Nat.min con csn) with con by lia.
  do 2 f_equal.
Qed.

(** C5, as amended.  For [0 <= chunkOverlap < chunkSize] the call returns,
    and for two consecutive chunks of the result the last [chunkOverlap]
    characters of the first equal the first [chunkOverlap] characters of the
    second whenever the first chunk has the full length [chunkSize]; when
    [2 * chunkOverlap <= chunkSize] (as with the defaults) that is the case
    for every pair but the final one. *)
Theorem chunkText_overlap text cs co :
  0 <= co < cs ->
  exists chunks,
    (forall fuel, (List.length (cleanText text) < fuel)%nat ->
       chunkText_fuel fuel text cs co = Some chunks) /\
    (forall k a b,
       nth_error chunks k = Some a -> nth_error chunks (S k) = Some b ->
       (JS.length a = cs -> lastChars co a = firstChars co b) /\
       (2 * co <= cs -> (S (S k) < List.length chunks)%nat ->
        lastChars co a = firstChars co b)).
Proof.
  intros Hp.
  set (T := cleanText text).
  set (n := iterations (JS.length T) (cs - co)).
  exists (map snd (keptSpans T cs (cs - co) 0 n)).
  split; [intros fuel Hf; apply chunkText_closed; trivial; lia|].
  intros k a b Ha Hb.
  destruct (Z.eq_dec co 0) as [->|Hco].
  { unfold lastChars, firstChars. simpl Z.to_nat.
    rewrite Nat.sub_0_r, skipn_all. split; reflexivity. }
  unfold T, n in *. rewrite chunks_all in * by lia. fold T in Ha, Hb |- *.
  rewrite length_map, length_seq.
  apply nth_error_map_seq in Ha. destruct Ha as [Hk ->].
  apply nth_error_map_seq in Hb. destruct Hb as [Hk' ->].
  set (csn := Z.to_nat cs). set (con := Z.to_nat co).
  assert (Est : Z.to_nat (cs - co) = (csn - con)%nat) by lia.
  rewrite Est.
  assert (Eco : co = Z.of_nat con) by lia.
  assert (Hfull :
    (k * (csn - con) + csn <= List.length T)%nat ->
    lastChars co (firstn csn (skipn (k * (csn - con)) T)) =
    firstChars co (firstn csn (skipn (S k * (csn - con)) T))).
  { intros Hlen. rewrite Eco. apply window_overlap; lia. }
  split.
  - intros Hlen. apply Hfull.
    unfold JS.length in Hlen. rewrite length_firstn, length_skipn in Hlen.
    lia.
  - intros H2 Hn. apply Hfull.
    apply iterations_spec in Hn; [|lia|unfold JS.length; lia].
    unfold JS.length in Hn. fold T in Hn. nia.
Qed.

Lemma chunkText_overlap_witness :
  exists chunks,
    (forall fuel, (List.length (cleanText (js "ab cd ef")) < fuel)%nat ->
       chunkText_fuel fuel (js "ab cd ef") 4 1 = Some chunks) /\
    (forall k a b,
       nth_error chunks k = Some a -> nth_error chunks (S k) = Some b ->
       (JS.length a = 4 -> lastChars 1 a = firstChars 1 b) /\
       (2 * 1 <= 4 -> (S (S k) < List.length chunks)%nat ->
        lastChars 1 a = firstChars 1 b)).
Proof.
  apply (chunkText_overlap (js "ab cd ef") 4 1). lia.
Defined.

(** C5 as stated fails when the overlap exceeds half the chunk size: the
    first two of the three chunks of "abc" are not the final pair, and the
    last 3 characters of the first are not the first 3 of the second. *)
Lemma chunkText_overlap_short_chunk :
  3 < 4 /\
  chunkText_fuel 4 (js "abc") 4 3 = Some [js "abc"; js "bc"; js "c"] /\
  lastChars 3 (js "abc") <> firstChars 3 (js "bc").
Proof.
  split; [lia|]. split; [reflexivity|]. vm_compute. discriminate.
Qed.

Lemma chunkLoop_well_formed fuel T cs co i acc r :
  onlySpaces T -> noAdjacentWhiteSpace T ->
  Forall wellFormedChunk acc ->
  chunkLoop fuel T cs co i acc = Some r -> Forall wellFormedChunk r.
Proof.
  intros HT1 HT2. revert i acc.
  induction fuel as [|fuel IH]; intros i acc Hacc H; simpl in H.
  - discriminate.
  - destruct (i <? JS.length T).
    + apply IH in H; [exact H|].
      destruct (keepChunk (substring T i (i + cs))) eqn:Ek; [|exact Hacc].
      apply Forall_app. split; [exact Hacc|].
      constructor; [|constructor]. split; [|split].
      * apply keepChunk_trim. exact Ek.
      * apply onlySpaces_firstn, onlySpaces_skipn, HT1.
      * apply noAdjacent_firstn, noAdjacent_skipn, HT2.
    + injection H as <-. exact Hacc.
Qed.

(** C10.  Whatever the parameters, every chunk of a list that [chunkText]
    returns is non-empty after trimming, holds no white space other than the
    space character, and holds no two neighbouring white-space characters;
    and for [chunkOverlap < chunkSize] such a list is returned. *)
Theorem chunkText_chunks_well_formed text cs co :
  (forall fuel chunks,
     chunkText_fuel fuel text cs co = Some chunks ->
     Forall wellFormedChunk chunks) /\
  (co < cs ->
   exists chunks,
     chunkText_returns text cs co chunks /\ Forall wellFormedChunk chunks).
Proof.
  assert (Hall : forall fuel chunks,
             chunkText_fuel fuel text cs co = Some chunks ->
             Forall wellFormedChunk chunks).
  { intros fuel chunks H. unfold chunkText_fuel in H.
    eapply chunkLoop_well_formed; [| | |exact H].
    - apply onlySpaces_cleanText.
    - apply noAdjacent_cleanText.
    - constructor. }
  split; [exact Hall|].
  intros Hs.
  pose proof (chunkText_closed text cs co (S (List.length (cleanText text)))
                Hs ltac:(lia)) as Hc.
  eexists. split; [eexists; exact Hc | eapply Hall; exact Hc].
Qed.

Lemma chunkText_chunks_well_formed_witness :
  Forall wellFormedChunk [js "ab c"; js "cd e"; js "ef"].
Proof.
  apply (proj1 (chunkText_chunks_well_formed
                  (js "  ab   cd" ++ [LF] ++ js " ef ") 4 1) 10%nat).
  reflexivity.
Defined.

(** * The indexer *)

Lemma dropWhile_all p s : forallb p s = true -> dropWhile p s = [].
Proof.
  induction s as [|c s IH]; simpl; [reflexivity|].
  destruct (p c); simpl; [exact IH | discriminate].
Qed.

Lemma trim_blank s : blank s = true -> trim s = [].
Proof.
  intros H. unfold trim, trimStart. rewrite dropWhile_all by exact H.
  reflexivity.
Qed.

Lemma trim_not_blank s : blank s = false -> trim s <> [].
Proof.
  unfold blank. intros H.
  assert (Hex : exists c, In c s /\ isWhiteSpace c = false).
  { induction s as [|a s IH]; simpl in H; [discriminate|].
    destruct (isWhiteSpace a) eqn:E.
    - destruct (IH H) as (c & Hin & Hc). exists c. split; [right|]; assumption.
    - exists a. split; [left; reflexivity | exact E]. }
  destruct Hex as (c & Hin & Hc).
  pose proof (In_trim s c Hin Hc) as Ht.
  intros E. rewrite E in Ht. contradiction.
Qed.

Lemma extractedText_blank t :
  match t with Some s => blank s | None => true end = true ->
  extractedText t = [].
Proof.
  unfold extractedText. destruct t as [s|]; [apply trim_blank | reflexivity].
Qed.

(** A run over the chunks of one document only appends rows, all of them
    rows of that document. *)
Lemma saveChunks_table w chunks metadata st :
  exists rows,
    table (fst (saveChunksAsEmbeddings w chunks metadata st)) =
    table st ++ rows /\
    Forall (fun r => path r = orNull (meta_path metadata) /\
                     In (content r) chunks) rows.
Proof.
  revert st. induction chunks as [|chunk chunks IH]; intros st; simpl.
  - exists []. rewrite app_nil_r. split; [reflexivity | constructor].
  - assert (Hweak : forall rows,
              Forall (fun r => path r = orNull (meta_path metadata) /\
                               In (content r) chunks) rows ->
              Forall (fun r => path r = orNull (meta_path metadata) /\
                               (chunk = content r \/ In (content r) chunks))
                     rows).
    { intros rows. apply Forall_impl. intros r [H1 H2]. auto. }
    destruct (embeddings_create w chunk) as [emb|].
    + destruct (insert_error w (rowOf chunk emb metadata)).
      * specialize (IH (log st (ErrorInsert chunk))).
        destruct (saveChunksAsEmbeddings w chunks metadata
                    (log st (ErrorInsert chunk))) as [st' e].
        destruct IH as (rows & H1 & H2). exists rows. split; auto.
      * specialize (IH (insertRow st (rowOf chunk emb metadata))).
        destruct IH as (rows & H1 & H2).
        eexists (_ :: rows). split.
        -- rewrite H1. simpl table. rewrite <- app_assoc. reflexivity.
        -- constructor; [simpl; auto | auto].
    + specialize (IH st).
      destruct (saveChunksAsEmbeddings w chunks metadata st) as [st' e].
      destruct IH as (rows & H1 & H2). exists rows. split; auto.
Qed.

Lemma saveChunks_fails w chunks metadata st chunk :
  In chunk chunks -> chunkFails w metadata chunk = true ->
  exists e, snd (saveChunksAsEmbeddings w chunks metadata st) = Some e.
Proof.
  revert st. induction chunks as [|c chunks IH]; intros st Hin Hf; simpl.
  - contradiction.
  - destruct Hin as [->|Hin].
    + unfold chunkFails in Hf.
      destruct (embeddings_create w chunk) as [emb|].
      * rewrite Hf.
        destruct (saveChunksAsEmbeddings w chunks metadata _).
        eexists. reflexivity.
      * destruct (saveChunksAsEmbeddings w chunks metadata _).
        eexists. reflexivity.
    + destruct (embeddings_create w c) as [emb|].
      * destruct (insert_error w (rowOf c emb metadata)).
        -- destruct (saveChunksAsEmbeddings w chunks metadata _).
           eexists. reflexivity.
        -- apply IH; assumption.
      * destruct (saveChunksAsEmbeddings w chunks metadata _).
        eexists. reflexivity.
Qed.

Lemma indexFiles_app w pre post st :
  indexFiles w (pre ++ post) st =
  match indexFiles w pre st with
  | (st1, None) => indexFiles w post st1
  | (st1, Some e) => (st1, Some e)
  end.
Proof.
  revert st. induction pre as [|file pre IH]; intros st; simpl.
  - reflexivity.
  - destruct (negb (isPdf w file)); [apply IH|].
    destruct (pdf_getText w (path_join_docs w file)) as [t|]; [|reflexivity].
    destruct (isEmpty (extractedText t)); [apply IH|].
    destruct (saveChunksAsEmbeddings w _ _ _) as [st2 [e|]];
      [reflexivity | apply IH].
Qed.

(** C9.  When the directory listing is [pre ++ file :: post], the files of
    [pre] were indexed without error and the PDF [file] yields a text that
    is missing, empty or white space only, folder indexing logs one warning
    for [file], adds no row to the table, raises no error for it and goes on
    with [post]. *)
Theorem indexLocalDocs_empty_text_skipped w pre file post st st1 t :
  existsSync_docs w = true ->
  readdirSync_docs w = pre ++ file :: post ->
  indexFiles w pre st = (st1, None) ->
  isPdf w file = true ->
  pdf_getText w (path_join_docs w file) = Some t ->
  match t with Some s => blank s | None => true end = true ->
  let st2 := log (log st1 (LogIndexing (path_join_docs w file)))
                 (WarnNoText file) in
  indexLocalDocs w st = indexFiles w post st2 /\
  table st2 = table st1 /\
  console st2 =
    console st1 ++ [LogIndexing (path_join_docs w file); WarnNoText file].
Proof.
  intros Hex Hdir Hpre Hpdf Htext Hblank st2.
  split; [|split].
  - unfold indexLocalDocs. rewrite Hex, Hdir. simpl negb. cbv iota.
    rewrite indexFiles_app, Hpre. simpl.
    rewrite Hpdf, Htext. simpl negb. cbv iota.
    rewrite (extractedText_blank t Hblank). reflexivity.
  - reflexivity.
  - unfold st2. simpl. rewrite <- app_assoc. reflexivity.
Qed.

Lemma indexLocalDocs_empty_text_skipped_witness :
  indexLocalDocs
    {| existsSync_docs := true;
       readdirSync_docs := [js "b.pdf"; js "c.PDF"; js "b.pdf"];
       toLowerCase := asciiLower;
       path_join_docs := path_join_docs exampleWorld;
       path_parse_name := path_parse_name exampleWorld;
       pdf_getText := fun fullPath =>
         if jsstring_eqb fullPath (js "MyDocs/c.PDF")
         then Some (Some [SPACE; LF; 160%N])
         else pdf_getText exampleWorld fullPath;
       embeddings_create := embeddings_create exampleWorld;
       insert_error := insert_error exampleWorld;
       cosine_distance := cosine_distance exampleWorld;
       rpc_error := false;
       chat_completions_create := chat_completions_create exampleWorld |}
    emptyState
  = ({| table := [rowY;
                  {| id := 2; content := js "y"; embedding := [1%Q; 0%Q];
                     title := Some (js "b"); source := Some (js "pdf");
                     path := Some (js "MyDocs/b.pdf") |}];
        console := [LogIndexing (js "MyDocs/b.pdf");
                    LogIndexing (js "MyDocs/c.PDF");
                    WarnNoText (js "c.PDF");
                    LogIndexing (js "MyDocs/b.pdf")] |}, None).
Proof.
  match goal with
  | |- indexLocalDocs ?w ?st = _ =>
      rewrite (proj1 (indexLocalDocs_empty_text_skipped w
                 [js "b.pdf"] (js "c.PDF") [js "b.pdf"] st
                 {| table := [rowY];
                    console := [LogIndexing (js "MyDocs/b.pdf")] |}
                 (Some [SPACE; LF; 160%N])
                 eq_refl eq_refl eq_refl eq_refl eq_refl eq_refl))
  end.
  reflexivity.
Defined.

(** C3, as amended.  When the directory listing is [pre ++ file :: post],
    the files of [pre] were indexed without error and the embedding or the
    insert of one chunk of the PDF [file] fails, folder indexing ends with
    that error: the rows persisted for [pre] remain in the table, the only
    rows added after them are rows of [file], and the outcome is the one of
    saving the chunks of [file], so no file of [post] is processed. *)
Theorem indexLocalDocs_chunk_failure w pre file post st st1 t chunk :
  existsSync_docs w = true ->
  readdirSync_docs w = pre ++ file :: post ->
  indexFiles w pre st = (st1, None) ->
  isPdf w file = true ->
  pdf_getText w (path_join_docs w file) = Some t ->
  extractedText t <> [] ->
  In chunk (chunkText (extractedText t)) ->
  chunkFails w (metadataOf w file) chunk = true ->
  exists st2 e rows,
    saveChunksAsEmbeddings w (chunkText (extractedText t))
      (metadataOf w file) (log st1 (LogIndexing (path_join_docs w file)))
    = (st2, Some e) /\
    indexLocalDocs w st = (st2, Some e) /\
    table st2 = table st1 ++ rows /\
    Forall (fun r => path r = orNull (path_join_docs w file)) rows.
Proof.
  intros Hex Hdir Hpre Hpdf Htext Hne Hin Hfail.
  set (st1' := log st1 (LogIndexing (path_join_docs w file))).
  destruct (saveChunks_fails w _ (metadataOf w file) st1' chunk Hin Hfail)
    as [e He].
  destruct (saveChunks_table w (chunkText (extractedText t))
              (metadataOf w file) st1') as (rows & Hrows & Hpath).
  destruct (saveChunksAsEmbeddings w (chunkText (extractedText t))
              (metadataOf w file) st1') as [st2 e'] eqn:Esave.
  simpl in He, Hrows. subst e'.
  exists st2, e, rows. split; [reflexivity|]. split; [|split].
  - unfold indexLocalDocs. rewrite Hex, Hdir. simpl negb. cbv iota.
    rewrite indexFiles_app, Hpre. simpl.
    rewrite Hpdf, Htext. simpl negb. cbv iota.
    destruct (extractedText t) eqn:Et; [congruence|]. simpl isEmpty. cbv iota.
    fold st1'. rewrite Esave. reflexivity.
  - exact Hrows.
  - revert Hpath. apply Forall_impl. intros r [H _]. exact H.
Qed.

Lemma indexLocalDocs_chunk_failure_witness :
  exists st2 e rows,
    saveChunksAsEmbeddings exampleWorld (chunkText (js "x"))
      (metadataOf exampleWorld (js "a.pdf"))
      (log emptyState (LogIndexing (js "MyDocs/a.pdf")))
    = (st2, Some e) /\
    indexLocalDocs exampleWorld emptyState = (st2, Some e) /\
    table st2 = table emptyState ++ rows /\
    Forall (fun r => path r = orNull (js "MyDocs/a.pdf")) rows.
Proof.
  apply (indexLocalDocs_chunk_failure exampleWorld
           [] (js "a.pdf") [js "notes.txt"; js "b.pdf"]
           emptyState emptyState (Some (js "x")) (js "x")).
  - reflexivity.
  - reflexivity.
  - reflexivity.
  - reflexivity.
  - reflexivity.
  - discriminate.
  - left. reflexivity.
  - reflexivity.
Defined.

(** C3 as stated fails: the chunk of "a.pdf" cannot be embedded, and the
    call ends there.  "b.pdf", later in the listing, is never read and none
    of its chunks is persisted, although indexing it alone succeeds. *)
Lemma indexLocalDocs_halts_on_first_failure :
  readdirSync_docs exampleWorld = [js "a.pdf"; js "notes.txt"; js "b.pdf"] /\
  indexLocalDocs exampleWorld emptyState =
    ({| table := []; console := [LogIndexing (js "MyDocs/a.pdf")] |},
     Some EmbeddingFailed) /\
  indexFiles exampleWorld [js "b.pdf"] emptyState =
    ({| table := [rowY]; console := [LogIndexing (js "MyDocs/b.pdf")] |},
     None).
Proof.
  split; [reflexivity|]. split; vm_compute; reflexivity.
Qed.

(** * The retriever *)

Lemma Qgtb_lt a b : Qgtb a b = true <-> (b < a)%Q.
Proof.
  unfold Qgtb. rewrite negb_true_iff. split.
  - intros H. apply Qnot_le_lt. intros Hle.
    apply Qle_bool_iff in Hle. congruence.
  - intros H. destruct (Qle_bool a b) eqn:E; [|reflexivity].
    apply Qle_bool_iff in E. apply Qlt_not_le in H. contradiction.
Qed.

Lemma selectMatches_spec w rows q thr m :
  In m (selectMatches w rows q thr) ->
  (thr < similarity m)%Q /\
  exists d, In d rows /\ match_id m = id d /\ match_content m = content d /\
            similarity m = similarityOf w q d.
Proof.
  unfold selectMatches. rewrite in_map_iff.
  intros (d & <- & Hd). apply filter_In in Hd. destruct Hd as [Hin Hgt].
  simpl. split; [apply Qgtb_lt; exact Hgt|].
  exists d. auto.
Qed.

Lemma Forall_firstn {A} (P : A -> Prop) n l :
  Forall P l -> Forall P (firstn n l).
Proof.
  revert l. induction n as [|n IH]; intros [|x l] H; simpl;
    try constructor; inversion H; subst; auto.
Qed.

Lemma StronglySorted_firstn {A} (R : A -> A -> Prop) n l :
  StronglySorted R l -> StronglySorted R (firstn n l).
Proof.
  revert l. induction n as [|n IH]; intros [|x l] H; simpl;
    try constructor; inversion H; subst; auto using Forall_firstn.
Qed.

(** Every answer SQL allows is above the threshold, within the count and
    in descending order. *)
Lemma match_documents_answer_sound w rows q thr count data :
  match_documents_answer w rows q thr count data ->
  Forall (fun m => (thr < similarity m)%Q /\
                   exists d, In d rows /\ match_id m = id d /\
                             match_content m = content d /\
                             similarity m = similarityOf w q d) data /\
  (List.length data <= count)%nat /\
  StronglySorted descending data.
Proof.
  intros (ordered & Hperm & Hsorted & ->). split; [|split].
  - apply Forall_firstn. apply Forall_forall. intros m Hm.
    apply (selectMatches_spec w rows q thr).
    eapply Permutation_in; [exact Hperm | exact Hm].
  - rewrite length_firstn. lia.
  - apply StronglySorted_firstn. exact Hsorted.
Qed.

Lemma insertDesc_perm m l : Permutation (insertDesc m l) (m :: l).
Proof.
  induction l as [|x l IH]; simpl; [reflexivity|].
  destruct (Qle_bool (similarity x) (similarity m)); [reflexivity|].
  rewrite IH. apply perm_swap.
Qed.

Lemma insertDesc_sorted m l :
  StronglySorted descending l -> StronglySorted descending (insertDesc m l).
Proof.
  induction l as [|x l IH]; intros H; simpl.
  - constructor; constructor.
  - inversion H as [|? ? Hs Hall]; subst.
    destruct (Qle_bool (similarity x) (similarity m)) eqn:E.
    + apply Qle_bool_iff in E.
      constructor; [exact H|]. constructor; [exact E|].
      revert Hall. apply Forall_impl. intros y Hy. unfold descending in *.
      eapply Qle_trans; eassumption.
    + assert (Hlt : (similarity m <= similarity x)%Q).
      { apply Qlt_le_weak, Qnot_le_lt. intros Hle.
        apply Qle_bool_iff in Hle. congruence. }
      constructor; [apply IH; exact Hs|].
      eapply Permutation_Forall; [symmetry; apply insertDesc_perm|].
      constructor; assumption.
Qed.

Lemma orderBySimilarityDesc_perm l : Permutation (orderBySimilarityDesc l) l.
Proof.
  induction l as [|m l IH]; simpl; [reflexivity|].
  rewrite insertDesc_perm. apply perm_skip. exact IH.
Qed.

Lemma orderBySimilarityDesc_sorted l :
  StronglySorted descending (orderBySimilarityDesc l).
Proof.
  induction l as [|m l IH]; simpl; [constructor|].
  apply insertDesc_sorted. exact IH.
Qed.

Lemma match_documents_is_answer w rows q thr count :
  match_documents_answer w rows q thr count
    (match_documents w rows q thr count).
Proof.
  exists (orderBySimilarityDesc (selectMatches w rows q thr)).
  split; [apply orderBySimilarityDesc_perm|].
  split; [apply orderBySimilarityDesc_sorted | reflexivity].
Qed.

(** C6.  The matches the retriever returns for a query all have similarity
    strictly greater than 0.5 (and are rows of the table with that score),
    are at most 10, and come in descending order of similarity. *)
Theorem retrieve_threshold_cap_order w rows query data :
  retrieve w rows query = Some data ->
  Forall (fun m => (1 # 2 < similarity m)%Q /\
                   exists d, In d rows /\ match_id m = id d /\
                             match_content m = content d) data /\
  (List.length data <= 10)%nat /\
  StronglySorted descending data.
Proof.
  unfold retrieve. intros H.
  destruct (embeddings_create w (replaceNewlines query)) as [emb|];
    [|discriminate].
  destruct (rpc_error w); [discriminate|]. injection H as <-.
  destruct (match_documents_answer_sound w rows emb match_threshold_used
              match_count_used _ (match_documents_is_answer _ _ _ _ _))
    as (H1 & H2 & H3).
  split; [|split; assumption].
  revert H1. apply Forall_impl. intros m (Hm & d & Hd1 & Hd2 & Hd3 & _).
  split; [exact Hm|]. exists d. auto.
Qed.

Lemma retrieve_threshold_cap_order_witness :
  map match_id
      (match_documents scoreWorld scoreRows [] (1 # 2) 10) =
    [12; 6; 2; 10; 8; 11; 4; 9; 1; 7] /\
  Forall (fun m => (1 # 2 < similarity m)%Q /\
                   exists d, In d scoreRows /\ match_id m = id d /\
                             match_content m = content d)
         (match_documents scoreWorld scoreRows [] (1 # 2) 10) /\
  (List.length (match_documents scoreWorld scoreRows [] (1 # 2) 10)
   <= 10)%nat /\
  StronglySorted descending
    (match_documents scoreWorld scoreRows [] (1 # 2) 10).
Proof.
  split; [vm_compute; reflexivity|].
  apply (retrieve_threshold_cap_order scoreWorld scoreRows (js "q")).
  reflexivity.
Defined.

(** * Context assembly *)

Lemma chunkSection_labeled idx row :
  chunkSection idx row = labeledSection (S idx) (match_content row).
Proof. unfold chunkSection, labeledSection. rewrite Nat.add_1_r. reflexivity. Qed.

Lemma forEachRow_sections data idx context :
  forEachRow data idx context =
  context ++
  List.concat
    (map (fun p => labeledSection (fst p) (match_content (snd p)))
         (combine (seq (S idx) (List.length data)) data)).
Proof.
  revert idx context. induction data as [|row rest IH]; intros idx context.
  - simpl. rewrite app_nil_r. reflexivity.
  - cbn [forEachRow List.length seq combine map List.concat fst snd].
    rewrite IH, chunkSection_labeled, <- app_assoc. reflexivity.
Qed.

Lemma buildContext_sections row rest :
  buildContext (row :: rest) = rankedSections (row :: rest).
Proof.
  unfold buildContext, rankedSections.
  rewrite forEachRow_sections. rewrite app_nil_l.
  cbn [List.length seq combine map List.concat fst snd].
  unfold labeledSection at 1. reflexivity.
Qed.

(** C7.  For the data of a successful search, the context is the
    concatenation of the labelled sections of the matches in rank order,
    counted from 1, each content trimmed; it is the sentinel
    "No relevant context found." when there is no match; and the chat
    request sent to the generation service carries, as the content of its
    user message, the context between "Context:\n" and "\n\nQuestion: ". *)
Theorem buildContext_sections_or_sentinel w rows query data :
  retrieve w rows query = Some data ->
  buildContext data =
    match data with
    | [] => js "No relevant context found."
    | _ :: _ => rankedSections data
    end /\
  (exists outcome,
     processQuery w rows query =
       ([CallEmbedding (replaceNewlines query);
         CallMatchDocuments
           (match embeddings_create w (replaceNewlines query) with
            | Some emb => emb
            | None => []
            end) (1 # 2) 10;
         CallChat (chatRequest (buildContext data) query)], outcome)) /\
  map message_content (messages (chatRequest (buildContext data) query)) =
    [systemContent;
     js "Context:" ++ [LF] ++ buildContext data ++ [LF; LF] ++
     js "Question: " ++ query ++ [LF; LF] ++
     js "Answer clearly and concisely."].
Proof.
  intros H. split; [|split].
  - destruct data as [|row rest]; [reflexivity|].
    apply buildContext_sections.
  - unfold retrieve in H. unfold processQuery.
    destruct (embeddings_create w (replaceNewlines query)) as [emb|];
      [|discriminate].
    destruct (rpc_error w); [discriminate|]. injection H as <-.
    destruct (chat_completions_create w _); eexists; reflexivity.
  - reflexivity.
Qed.

Lemma buildContext_sections_or_sentinel_witness :
  buildContext (match_documents scoreWorld (firstn 2 scoreRows) [] (1 # 2) 10)
  = js "Chunk 1:" ++ [LF] ++ js "chunk" ++ [LF; LF] ++
    js "Chunk 2:" ++ [LF] ++ js "chunk" ++ [LF; LF].
Proof.
  etransitivity.
  - apply (proj1 (buildContext_sections_or_sentinel scoreWorld
                    (firstn 2 scoreRows) (js "q") _ eq_refl)).
  - reflexivity.
Defined.

(** * The query route *)

(** C8.  A request without a parsed body is answered with status 500
    ("Internal Server Error"), not 400, and without any call to a service:
    the destructuring of [req.body] throws before the check of [query] is
    reached.  With a parsed body, a [query] that is missing, empty or white
    space only is answered with status 400 and no call to the embedding,
    search or generation service; for every other string the route runs
    [processQuery], whose first call is the embedding request, and answers
    with the status of its outcome. *)
Theorem queryRoute_validation w rows :
  queryRoute w rows BodyUndefined =
    ([], {| status := 500;
            body := ErrorBody (js "Internal Server Error") |}) /\
  (forall query,
     query = JUndefined \/ (exists s, query = JString s /\ blank s = true) ->
     queryRoute w rows (BodyParsed query) = ([], badRequest)) /\
  (forall s,
     blank s = false ->
     exists calls outcome,
       processQuery w rows s =
         (CallEmbedding (replaceNewlines s) :: calls, outcome) /\
       queryRoute w rows (BodyParsed (JString s)) =
         (CallEmbedding (replaceNewlines s) :: calls, responseOf outcome) /\
       status (responseOf outcome) <> 400).
Proof.
  split; [reflexivity|]. split.
  - intros query [->|(s & -> & Hs)]; [reflexivity|].
    unfold queryRoute. pose proof (trim_blank s Hs) as Ht.
    destruct s as [|c s]; [reflexivity|].
    simpl falsy. cbv iota. rewrite Ht. reflexivity.
  - intros s Hs. pose proof (trim_not_blank s Hs) as Ht.
    assert (Hproc : exists calls outcome,
              processQuery w rows s =
                (CallEmbedding (replaceNewlines s) :: calls, outcome)).
    { unfold processQuery.
      destruct (embeddings_create w (replaceNewlines s));
        [|eexists; eexists; reflexivity].
      destruct (rpc_error w); [eexists; eexists; reflexivity|].
      destruct (chat_completions_create w _);
        eexists; eexists; reflexivity. }
    destruct Hproc as (calls & outcome & Hp).
    exists calls, outcome. split; [exact Hp|]. split.
    + unfold queryRoute.
      destruct s as [|c s]; [discriminate Hs|].
      simpl falsy. cbv iota.
      destruct (trim (c :: s)) eqn:Et; [congruence|].
      simpl isEmpty. cbv iota. rewrite Hp.
      destruct outcome; reflexivity.
    + destruct outcome; simpl; discriminate.
Qed.

Lemma queryRoute_validation_witness :
  status (snd (queryRoute exampleWorld [rowY] BodyUndefined)) = 500 /\
  queryRoute exampleWorld [rowY] (BodyParsed (JString [SPACE; LF; 9%N])) =
    ([], badRequest) /\
  exists calls outcome,
    processQuery exampleWorld [rowY] (js "why?") =
      (CallEmbedding (replaceNewlines (js "why?")) :: calls, outcome) /\
    queryRoute exampleWorld [rowY] (BodyParsed (JString (js "why?"))) =
      (CallEmbedding (replaceNewlines (js "why?")) :: calls,
       responseOf outcome) /\
    status (responseOf outcome) <> 400.
Proof.
  destruct (queryRoute_validation exampleWorld [rowY]) as (H0 & H1 & H2).
  split; [rewrite H0; reflexivity|]. split.
  - apply H1. right. exists [SPACE; LF; 9%N]. split; reflexivity.
  - apply H2. reflexivity.
Defined.

(** The request without a body, evaluated: the query is missing and the
    answer is 500, where the check of the handler answers 400 for a query
    that is missing from a parsed body. *)
Lemma queryRoute_no_body_is_500 :
  status (snd (queryRoute exampleWorld [] BodyUndefined)) = 500 /\
  status (snd (queryRoute exampleWorld [] (BodyParsed JUndefined))) = 400 /\
  fst (queryRoute exampleWorld [] BodyUndefined) = [].
Proof. repeat split. Qed.

(** * Further properties of the chunker *)

Lemma trim_head s c r : trim s = c :: r -> isWhiteSpace c = false.
Proof.
  unfold trim, trimStart.
  destruct (trimEnd_firstn (dropWhile isWhiteSpace s)) as [k ->].
  destruct (dropWhile isWhiteSpace s) as [|c' r'] eqn:E.
  - rewrite firstn_nil. discriminate.
  - destruct k; simpl; [discriminate|].
    intros H. injection H as <- _. eapply dropWhile_head. exact E.
Qed.

Lemma blank_collapseRuns b s :
  blank s = true -> blank (collapseRuns b s) = true.
Proof.
  unfold blank. revert b. induction s as [|c s IH]; intros b H; simpl in *.
  - reflexivity.
  - apply andb_prop in H. destruct H as [Hc Hs]. rewrite Hc.
    destruct b; simpl; auto.
Qed.

Lemma In_collapseRuns b s c :
  In c s -> isWhiteSpace c = false -> In c (collapseRuns b s).
Proof.
  revert b. induction s as [|a s IH]; intros b Hin Hc; simpl in *.
  - contradiction.
  - destruct Hin as [->|Hin].
    + rewrite Hc. left. reflexivity.
    + destruct (isWhiteSpace a); [destruct b|]; simpl; auto.
Qed.

Lemma not_blank_In s :
  blank s = false -> exists c, In c s /\ isWhiteSpace c = false.
Proof.
  unfold blank. induction s as [|a s IH]; simpl; intros H; [discriminate|].
  destruct (isWhiteSpace a) eqn:E.
  - destruct (IH H) as (c & Hin & Hc). exists c. split; [right|]; assumption.
  - exists a. split; [left; reflexivity | exact E].
Qed.

Lemma cleanText_nil_iff text : cleanText text = [] <-> blank text = true.
Proof.
  unfold cleanText, replaceWhiteSpaceRuns. split.
  - intros H. destruct (blank text) eqn:E; [reflexivity|]. exfalso.
    destruct (not_blank_In text E) as (c & Hin & Hc).
    pose proof (In_trim _ c (In_collapseRuns false text c Hin Hc) Hc) as Ht.
    rewrite H in Ht. contradiction.
  - intros H. apply trim_blank, blank_collapseRuns, H.
Qed.

Lemma cleanText_head text c r :
  cleanText text = c :: r -> isWhiteSpace c = false.
Proof. unfold cleanText. apply trim_head. Qed.

(** X1.  A text that is empty or white space only gives the empty list of
    chunks, whatever the parameters; and for [chunkSize >= 1] and
    [chunkOverlap < chunkSize] that is the only way to get the empty list. *)
Theorem chunkText_blank text cs co :
  (blank text = true ->
   forall fuel, (0 < fuel)%nat ->
     chunkText_fuel fuel text cs co = Some []) /\
  (1 <= cs -> co < cs -> chunkText_returns text cs co [] ->
   blank text = true).
Proof.
  split.
  - intros H fuel Hf. apply cleanText_nil_iff in H.
    unfold chunkText_fuel. rewrite H.
    destruct fuel; [lia | reflexivity].
  - intros Hcs Hco Hret. apply cleanText_nil_iff.
    destruct (cleanText text) as [|c r] eqn:ET; [reflexivity|exfalso].
    pose proof (cleanText_head text c r ET) as Hc.
    set (n := iterations (JS.length (cleanText text)) (cs - co)).
    assert (Hn : (0 < n)%nat).
    { apply iterations_spec; [lia | unfold JS.length; lia |].
      rewrite ET. unfold JS.length. simpl List.length. lia. }
    assert (Hret' : chunkText_returns text cs co
              (map snd (keptSpans (cleanText text) cs (cs - co) 0 n))).
    { exists (S (List.length (cleanText text))).
      apply chunkText_closed; trivial; lia. }
    pose proof (chunkText_returns_unique _ _ _ _ _ Hret Hret') as E.
    replace n with (S (n - 1)) in E by lia.
    rewrite keptSpans_cons in E.
    rewrite spanAt_window in E by lia. rewrite ET in E at 1.
    simpl skipn in E.
    replace (Z.to_nat cs) with (S (Z.to_nat cs - 1)) in E by lia.
    rewrite firstn_cons in E.
    rewrite (keepChunk_true _ c) in E; [discriminate E| left; reflexivity|].
    exact Hc.
Qed.

Lemma chunkText_blank_witness :
  chunkText_fuel 1 [SPACE; LF; 9%N; 160%N] (-3) 7 = Some [] /\
  blank (js "   ") = true.
Proof.
  split.
  - apply (proj1 (chunkText_blank [SPACE; LF; 9%N; 160%N] (-3) 7));
      [reflexivity | lia].
  - apply (proj2 (chunkText_blank (js "   ") 4 1)); [lia | lia |].
    exists 1%nat. reflexivity.
Defined.

Lemma collapseRuns_normal b s :
  onlySpaces s -> noAdjacentWhiteSpace s ->
  (b = true -> match s with c :: _ => isWhiteSpace c = false | [] => True end) ->
  collapseRuns b s = s.
Proof.
  revert b. induction s as [|c s IH]; intros b H1 H2 Hb; simpl.
  - reflexivity.
  - inversion H1 as [|? ? Hc H1']; subst. destruct H2 as [Hadj H2].
    destruct (isWhiteSpace c) eqn:E.
    + destruct b; [specialize (Hb eq_refl); congruence|].
      rewrite (Hc eq_refl) in *. f_equal. apply IH; trivial.
    + f_equal. apply IH; trivial; discriminate.
Qed.

Lemma trim_normal s :
  (forall c r, s = c :: r -> isWhiteSpace c = false) ->
  (forall r c, s = r ++ [c] -> isWhiteSpace c = false) ->
  trim s = s.
Proof.
  intros Hh Hl. destruct s as [|c r]; [reflexivity|].
  unfold trim, trimStart. simpl dropWhile.
  rewrite (Hh c r eq_refl). unfold trimEnd.
  destruct (exists_last (l := c :: r) ltac:(discriminate)) as (r' & l & E).
  rewrite E, rev_app_distr. simpl.
  rewrite (Hl r' l E). simpl. rewrite rev_involutive. reflexivity.
Qed.

(** X2.  Cleaning is idempotent, so chunking a text and chunking its cleaned
    form give the same result, with the same fuel. *)
Theorem cleanText_idempotent text :
  cleanText (cleanText text) = cleanText text /\
  forall fuel cs co,
    chunkText_fuel fuel (cleanText text) cs co =
    chunkText_fuel fuel text cs co.
Proof.
  assert (H : cleanText (cleanText text) = cleanText text).
  { unfold cleanText at 1. unfold replaceWhiteSpaceRuns.
    rewrite collapseRuns_normal.
    - apply trim_normal.
      + intros c r E. eapply cleanText_head. exact E.
      + intros r c E.
        destruct (cleanText_last text) as (s' & c' & E' & Hc').
        { rewrite E. destruct r; discriminate. }
        rewrite E in E'. apply app_inj_tail in E'. destruct E' as [_ ->].
        exact Hc'.
    - apply onlySpaces_cleanText.
    - apply noAdjacent_cleanText.
    - discriminate. }
  split; [exact H|].
  intros fuel cs co. unfold chunkText_fuel. rewrite H. reflexivity.
Qed.

Lemma chunks_windows text cs co :
  2 <= cs -> co < cs ->
  map snd (keptSpans (cleanText text) cs (cs - co) 0
             (iterations (JS.length (cleanText text)) (cs - co))) =
  map (fun k => firstn (Z.to_nat cs)
                  (skipn (k * Z.to_nat (cs - co)) (cleanText text)))
      (seq 0 (iterations (JS.length (cleanText text)) (cs - co))).
Proof.
  intros H1 H2. rewrite keptSpans_all by lia. rewrite map_map.
  apply map_ext. intros k. apply spanAt_window; lia.
Qed.

(** X3.  For [chunkSize >= 2] and [chunkOverlap < chunkSize] the number of
    chunks returned is the length of the cleaned text divided by the stride
    [chunkSize - chunkOverlap], rounded up. *)
Theorem chunkText_count text cs co :
  2 <= cs -> co < cs ->
  exists chunks,
    chunkText_returns text cs co chunks /\
    Z.of_nat (List.length chunks) =
    (JS.length (cleanText text) + (cs - co) - 1) / (cs - co).
Proof.
  intros H1 H2. eexists. split.
  - exists (S (List.length (cleanText text))).
    apply chunkText_closed; trivial; lia.
  - rewrite chunks_windows by assumption.
    rewrite length_map, length_seq. unfold iterations.
    apply Z2Nat.id. apply Z.div_pos; unfold JS.length; lia.
Qed.

Lemma chunkText_count_witness :
  exists chunks,
    chunkText_returns (repeat 97%N 1700) 1000 200 chunks /\
    Z.of_nat (List.length chunks) =
    (JS.length (cleanText (repeat 97%N 1700)) + (1000 - 200) - 1)
    / (1000 - 200).
Proof. apply (chunkText_count (repeat 97%N 1700) 1000 200); lia. Defined.

Lemma firstn_add {A} a b (l : list A) :
  firstn (a + b) l = firstn a l ++ firstn b (skipn a l).
Proof.
  revert l. induction a as [|a IH]; intros [|x l]; simpl;
    try rewrite firstn_nil; try reflexivity.
  f_equal. apply IH.
Qed.

Lemma reassemble_windows (T : jsstring) csn con m :
  (con < csn)%nat ->
  firstn csn T ++
  List.concat
    (map (fun k => skipn con (firstn csn (skipn (k * (csn - con)) T)))
         (seq 1 m)) =
  firstn (m * (csn - con) + csn) T.
Proof.
  intros Hc. induction m as [|m IH].
  - simpl. rewrite app_nil_r. reflexivity.
  - rewrite seq_S, map_app, concat_app, app_assoc, IH.
    cbn [map List.concat]. rewrite app_nil_r.
    rewrite skipn_firstn_comm, skipn_skipn.
    replace (con + (1 + m) * (csn - con))%nat
      with (m * (csn - con) + csn)%nat by nia.
    rewrite <- firstn_add. f_equal. nia.
Qed.

(** X4.  For [0 <= chunkOverlap < chunkSize] and [chunkSize >= 2] the
    cleaned text is recovered from the chunks: the first chunk followed by
    every later chunk without its first [chunkOverlap] characters. *)
Theorem chunkText_reassemble text cs co :
  2 <= cs -> 0 <= co < cs ->
  exists chunks,
    chunkText_returns text cs co chunks /\
    reassemble co chunks = cleanText text.
Proof.
  intros H1 H2. eexists. split.
  - exists (S (List.length (cleanText text))).
    apply chunkText_closed; trivial; lia.
  - rewrite chunks_windows by lia.
    set (T := cleanText text).
    set (n := iterations (JS.length T) (cs - co)).
    set (csn := Z.to_nat cs). set (con := Z.to_nat co).
    assert (Est : Z.to_nat (cs - co) = (csn - con)%nat) by lia.
    rewrite Est.
    destruct n as [|m] eqn:En.
    + assert (Hn : ~ (0 < n)%nat) by lia.
      destruct T as [|c r] eqn:ET; [reflexivity|].
      exfalso. apply Hn. apply iterations_spec;
        [lia | unfold JS.length; lia |].
      unfold JS.length. simpl List.length. lia.
    + cbn [seq map reassemble]. rewrite Nat.mul_0_l, skipn_0.
      rewrite map_map. fold con.
      rewrite (reassemble_windows T csn con m) by lia.
      apply firstn_all2.
      assert (Hm : ~ (S m < n)%nat) by lia.
      assert (Hge : ~ (Z.of_nat (S m) * (cs - co) < JS.length T)).
      { intros Hlt. apply Hm. apply iterations_spec;
          [lia | unfold JS.length; lia | exact Hlt]. }
      unfold JS.length in Hge. nia.
Qed.

Lemma chunkText_reassemble_witness :
  exists chunks,
    chunkText_returns (js "  ab   cd ef gh") 4 1 chunks /\
    reassemble 1 chunks = cleanText (js "  ab   cd ef gh").
Proof. apply (chunkText_reassemble (js "  ab   cd ef gh") 4 1); lia. Defined.

(** * Further properties of the indexer *)

Lemma saveChunks_savedRows w chunks metadata st :
  exists rows,
    table (fst (saveChunksAsEmbeddings w chunks metadata st)) =
      table st ++ rows /\
    map stripId rows = savedRows w metadata chunks.
Proof.
  revert st. induction chunks as [|chunk chunks IH]; intros st; simpl.
  - exists []. rewrite app_nil_r. split; reflexivity.
  - destruct (embeddings_create w chunk) as [emb|].
    + destruct (insert_error w (rowOf chunk emb metadata)).
      * specialize (IH (log st (ErrorInsert chunk))).
        destruct (saveChunksAsEmbeddings w chunks metadata
                    (log st (ErrorInsert chunk))) as [st' e].
        exact IH.
      * specialize (IH (insertRow st (rowOf chunk emb metadata))).
        destruct IH as (rows & H1 & H2).
        eexists (_ :: rows). split.
        -- rewrite H1. simpl table. rewrite <- app_assoc. reflexivity.
        -- simpl. rewrite H2. reflexivity.
    + specialize (IH st).
      destruct (saveChunksAsEmbeddings w chunks metadata st) as [st' e].
      exact IH.
Qed.

Lemma saveChunks_error w chunks metadata st :
  snd (saveChunksAsEmbeddings w chunks metadata st) = None <->
  Forall (fun chunk => chunkFails w metadata chunk = false) chunks.
Proof.
  revert st. induction chunks as [|chunk chunks IH]; intros st; simpl.
  - split; [constructor | reflexivity].
  - unfold chunkFails at 1.
    destruct (embeddings_create w chunk) as [emb|] eqn:Ee.
    + destruct (insert_error w (rowOf chunk emb metadata)) eqn:Ei.
      * destruct (saveChunksAsEmbeddings w chunks metadata _). simpl.
        split; [discriminate|]. intros H. inversion H as [|? ? Hc _]; subst.
        unfold chunkFails in Hc. rewrite Ee, Ei in Hc. discriminate.
      * rewrite IH. split.
        -- intros H. constructor; [|exact H].
           unfold chunkFails. rewrite Ee. exact Ei.
        -- intros H. inversion H; assumption.
    + destruct (saveChunksAsEmbeddings w chunks metadata _). simpl.
      split; [discriminate|]. intros H. inversion H as [|? ? Hc _]; subst.
      unfold chunkFails in Hc. rewrite Ee in Hc. discriminate.
Qed.

Lemma savedRows_content w metadata chunks :
  map new_content (savedRows w metadata chunks) =
  filter (fun chunk => negb (chunkFails w metadata chunk)) chunks.
Proof.
  induction chunks as [|chunk chunks IH]; simpl; [reflexivity|].
  rewrite map_app, IH. unfold chunkFails at 2.
  destruct (embeddings_create w chunk) as [emb|]; [|reflexivity].
  destruct (insert_error w (rowOf chunk emb metadata)); reflexivity.
Qed.

Lemma Permutation_filter {A} (f : A -> bool) l l' :
  Permutation l l' -> Permutation (filter f l) (filter f l').
Proof.
  induction 1 as [|x l l' _ IH|x y l|l l' l'' _ IH1 _ IH2]; simpl.
  - constructor.
  - destruct (f x); [apply perm_skip|]; exact IH.
  - destruct (f x), (f y); try reflexivity. apply perm_swap.
  - etransitivity; eassumption.
Qed.

Lemma saveChunks_error_kind w chunks metadata st e :
  snd (saveChunksAsEmbeddings w chunks metadata st) = Some e ->
  exists chunk,
    In chunk chunks /\
    ((e = EmbeddingFailed /\ embeddings_create w chunk = None) \/
     (e = InsertFailed /\
      exists emb, embeddings_create w chunk = Some emb /\
                  insert_error w (rowOf chunk emb metadata) = true)).
Proof.
  revert st. induction chunks as [|chunk chunks IH]; intros st; simpl.
  - discriminate.
  - destruct (embeddings_create w chunk) as [emb|] eqn:Ee.
    + destruct (insert_error w (rowOf chunk emb metadata)) eqn:Ei.
      * destruct (saveChunksAsEmbeddings w chunks metadata _). simpl.
        intros H. injection H as <-. exists chunk.
        split; [left; reflexivity|]. right. split; [reflexivity|].
        exists emb. split; assumption.
      * intros H. destruct (IH _ H) as (c & Hin & Hc).
        exists c. split; [right; exact Hin | exact Hc].
    + destruct (saveChunksAsEmbeddings w chunks metadata _). simpl.
      intros H. injection H as <-. exists chunk.
      split; [left; reflexivity|]. left. split; [reflexivity | exact Ee].
Qed.

(** X5.  [saveChunksAsEmbeddings] starts the operations of all chunks at
    once; let [order] be the order in which they complete.  Whatever that
    order, the rows already in the table are kept, the rows appended are
    those of the chunks whose embedding and insert both succeed, each once
    and with the title, source and path of the metadata, the call ends
    without error exactly when no chunk fails, and an error it ends with is
    the embedding or insert failure of one of the chunks. *)
Theorem saveChunksAsEmbeddings_outcome w chunks order metadata st :
  Permutation order chunks ->
  exists rows,
    table (fst (saveChunksAsEmbeddings w order metadata st)) =
      table st ++ rows /\
    Permutation (map content rows)
      (filter (fun chunk => negb (chunkFails w metadata chunk)) chunks) /\
    Forall (fun r => title r = orNull (meta_title metadata) /\
                     source r = orNull (meta_source metadata) /\
                     path r = orNull (meta_path metadata)) rows /\
    (snd (saveChunksAsEmbeddings w order metadata st) = None <->
     Forall (fun chunk => chunkFails w metadata chunk = false) chunks) /\
    (forall e,
       snd (saveChunksAsEmbeddings w order metadata st) = Some e ->
       exists chunk,
         In chunk chunks /\
         ((e = EmbeddingFailed /\ embeddings_create w chunk = None) \/
          (e = InsertFailed /\
           exists emb, embeddings_create w chunk = Some emb /\
                       insert_error w (rowOf chunk emb metadata) = true))).
Proof.
  intros Hperm.
  destruct (saveChunks_savedRows w order metadata st) as (rows & H1 & H2).
  exists rows. split; [exact H1|]. split; [|split; [|split]].
  - replace (map content rows)
      with (map new_content (map stripId rows)) by (rewrite map_map; reflexivity).
    rewrite H2, savedRows_content. apply Permutation_filter. exact Hperm.
  - assert (Hall : Forall (fun r => new_title r = orNull (meta_title metadata)
                             /\ new_source r = orNull (meta_source metadata)
                             /\ new_path r = orNull (meta_path metadata))
                     (savedRows w metadata order)).
    { unfold savedRows. apply Forall_flat_map. apply Forall_forall.
      intros chunk _.
      destruct (embeddings_create w chunk) as [emb|]; [|constructor].
      destruct (insert_error w (rowOf chunk emb metadata)); constructor;
        [|constructor]. simpl. auto. }
    rewrite <- H2 in Hall. rewrite Forall_map in Hall. exact Hall.
  - rewrite saveChunks_error. split; intros H.
    + eapply Permutation_Forall; [exact Hperm | exact H].
    + eapply Permutation_Forall; [symmetry; exact Hperm | exact H].
  - intros e He.
    destruct (saveChunks_error_kind w order metadata st e He)
      as (chunk & Hin & Hk).
    exists chunk. split; [|exact Hk].
    eapply Permutation_in; eassumption.
Qed.

Lemma saveChunksAsEmbeddings_outcome_witness :
  exists rows,
    table (fst (saveChunksAsEmbeddings exampleWorld
                  [js "y"; js "x"; js "z"]
                  (metadataOf exampleWorld (js "b.pdf")) emptyState)) =
      table emptyState ++ rows /\
    Permutation (map content rows) [js "y"; js "z"].
Proof.
  destruct (saveChunksAsEmbeddings_outcome exampleWorld
              [js "x"; js "y"; js "z"] [js "y"; js "x"; js "z"]
              (metadataOf exampleWorld (js "b.pdf")) emptyState
              (perm_swap _ _ _)) as (rows & H1 & H2 & _).
  exists rows. split; [exact H1 | exact H2].
Defined.

Lemma indexFiles_filter_pdf w files st :
  indexFiles w files st = indexFiles w (filter (isPdf w) files) st.
Proof.
  revert st. induction files as [|file files IH]; intros st; simpl.
  - reflexivity.
  - destruct (isPdf w file) eqn:E; simpl; [|apply IH].
    rewrite E. simpl.
    destruct (pdf_getText w (path_join_docs w file)) as [t|]; [|reflexivity].
    destruct (isEmpty (extractedText t)); [apply IH|].
    destruct (saveChunksAsEmbeddings w _ _ _) as [st2 [e|]];
      [reflexivity | apply IH].
Qed.

(** X6.  Folder indexing ignores every file whose lower-cased name does not
    end in ".pdf": the outcome is that of the listing with those files
    removed, and a listing without any PDF leaves table and console as they
    are and raises no error. *)
Theorem indexLocalDocs_ignores_other_files w st :
  existsSync_docs w = true ->
  indexLocalDocs w st =
    indexFiles w (filter (isPdf w) (readdirSync_docs w)) st /\
  (forallb (fun file => negb (isPdf w file)) (readdirSync_docs w) = true ->
   indexLocalDocs w st = (st, None)).
Proof.
  intros Hex. unfold indexLocalDocs. rewrite Hex. simpl.
  split; [apply indexFiles_filter_pdf|].
  intros H. rewrite indexFiles_filter_pdf.
  replace (filter (isPdf w) (readdirSync_docs w)) with (@nil jsstring);
    [reflexivity|].
  induction (readdirSync_docs w) as [|file files IH]; simpl in *;
    [reflexivity|].
  apply andb_prop in H. destruct H as [H1 H2].
  apply negb_true_iff in H1. rewrite H1. apply IH. exact H2.
Qed.

Lemma indexLocalDocs_ignores_other_files_witness :
  indexLocalDocs exampleWorld emptyState =
    indexFiles exampleWorld [js "a.pdf"; js "b.pdf"] emptyState.
Proof.
  apply (proj1 (indexLocalDocs_ignores_other_files exampleWorld emptyState
                  eq_refl)).
Defined.

Lemma hasEffect_ext run1 run2 rows events err :
  (forall st, run1 st = run2 st) ->
  hasEffect run2 rows events err -> hasEffect run1 rows events err.
Proof. intros E H st. rewrite E. apply H. Qed.

Lemma hasEffect_after run pre_rows pre_events rows events err
      (before : State -> State) :
  (forall st, console (before st) = console st ++ pre_events) ->
  (forall st, exists stored,
       table (before st) = table st ++ stored /\
       map stripId stored = pre_rows) ->
  hasEffect run rows events err ->
  hasEffect (fun st => run (before st))
            (pre_rows ++ rows) (pre_events ++ events) err.
Proof.
  intros Hc Ht H st. destruct (H (before st)) as (He & Hcon & stored & H1 & H2).
  split; [exact He|]. split.
  - rewrite Hcon, Hc, <- app_assoc. reflexivity.
  - destruct (Ht st) as (stored0 & H3 & H4).
    exists (stored0 ++ stored). split.
    + rewrite H1, H3, <- app_assoc. reflexivity.
    + rewrite map_app, H2, H4. reflexivity.
Qed.

Lemma hasEffect_error run rows events err err' :
  hasEffect run rows events err ->
  hasEffect (fun st => let (st', e) := run st in (st', err'))
            rows events err'.
Proof.
  intros H st. destruct (H st) as (_ & Hcon & Hrows).
  destruct (run st) as [st' e]. simpl in *. auto.
Qed.

Lemma saveChunks_effect w chunks metadata :
  exists events err,
    hasEffect (saveChunksAsEmbeddings w chunks metadata)
              (savedRows w metadata chunks) events err.
Proof.
  induction chunks as [|chunk chunks IH].
  - exists [], None. intros st. simpl. rewrite app_nil_r.
    split; [reflexivity|]. split; [reflexivity|].
    exists []. rewrite app_nil_r. split; reflexivity.
  - destruct IH as (events & err & IH). simpl savedRows.
    destruct (embeddings_create w chunk) as [emb|] eqn:Ee.
    + destruct (insert_error w (rowOf chunk emb metadata)) eqn:Ei.
      * exists (ErrorInsert chunk :: events), (Some InsertFailed).
        eapply hasEffect_ext.
        { intros st. simpl. rewrite Ee, Ei. reflexivity. }
        apply hasEffect_error
          with (run := fun st => saveChunksAsEmbeddings w chunks metadata
                                   (log st (ErrorInsert chunk)))
               (err := err).
        apply (hasEffect_after _ [] [ErrorInsert chunk] _ _ _
                 (fun st => log st (ErrorInsert chunk)));
          [reflexivity | | exact IH].
        intros st. exists []. rewrite app_nil_r. split; reflexivity.
      * exists events, err.
        eapply hasEffect_ext.
        { intros st. simpl. rewrite Ee, Ei. reflexivity. }
        apply (hasEffect_after _ [rowOf chunk emb metadata] [] _ _ _
                 (fun st => insertRow st (rowOf chunk emb metadata)));
          [intros st; simpl; rewrite app_nil_r; reflexivity | | exact IH].
        intros st. eexists [_]. split; reflexivity.
    + exists events, (Some EmbeddingFailed).
      eapply hasEffect_ext.
      { intros st. simpl. rewrite Ee. reflexivity. }
      apply hasEffect_error
        with (run := saveChunksAsEmbeddings w chunks metadata) (err := err).
      exact IH.
Qed.

Lemma savedRows_In w metadata chunks r :
  In r (savedRows w metadata chunks) ->
  exists chunk emb, In chunk chunks /\ r = rowOf chunk emb metadata.
Proof.
  unfold savedRows. rewrite in_flat_map. intros (chunk & Hin & Hr).
  destruct (embeddings_create w chunk) as [emb|]; [|contradiction].
  destruct (insert_error w (rowOf chunk emb metadata)); [contradiction|].
  destruct Hr as [<-|[]]. exists chunk, emb. auto.
Qed.

Lemma savedRows_complete w metadata chunks chunk :
  In chunk chunks -> chunkFails w metadata chunk = false ->
  exists emb,
    embeddings_create w chunk = Some emb /\
    In (rowOf chunk emb metadata) (savedRows w metadata chunks).
Proof.
  intros Hin Hok. unfold chunkFails in Hok.
  destruct (embeddings_create w chunk) as [emb|] eqn:Ee; [|discriminate].
  exists emb. split; [reflexivity|].
  unfold savedRows. apply in_flat_map. exists chunk. split; [exact Hin|].
  rewrite Ee, Hok. left. reflexivity.
Qed.

Lemma chunkText_default_chunks text :
  Forall (fun chunk => wellFormedChunk chunk /\
                       JS.length chunk <= defaultChunkSize)
         (chunkText text).
Proof.
  pose proof (chunkText_fuel_enough text) as H.
  apply Forall_forall. intros chunk Hin. split.
  - unfold chunkText_fuel in H.
    eapply chunkLoop_well_formed in H;
      [| apply onlySpaces_cleanText | apply noAdjacent_cleanText
       | constructor].
    rewrite Forall_forall in H. apply H. exact Hin.
  - rewrite chunkText_closed in H by (unfold defaultChunkSize,
      defaultChunkOverlap; lia).
    injection H as H. rewrite <- H in Hin.
    apply in_map_iff in Hin. destruct Hin as (sp & <- & Hsp).
    apply keptSpans_In in Hsp. destruct Hsp as (k & _ & -> & _).
    rewrite spanAt_window by (unfold defaultChunkSize,
      defaultChunkOverlap; lia).
    unfold JS.length. rewrite length_firstn.
    unfold defaultChunkSize. lia.
Qed.

Lemma hasEffect_log run rows events err ev :
  hasEffect run rows events err ->
  hasEffect (fun st => run (log st ev)) rows (ev :: events) err.
Proof.
  intros H.
  apply (hasEffect_after run [] [ev] rows events err (fun st => log st ev));
    [reflexivity | | exact H].
  intros st. exists []. rewrite app_nil_r. split; reflexivity.
Qed.

Lemma hasEffect_bind run1 run2 rows1 events1 err1 rows2 events2 err2 :
  hasEffect run1 rows1 events1 err1 ->
  hasEffect run2 rows2 events2 err2 ->
  hasEffect (fun st => match run1 st with
                       | (st2, None) => run2 st2
                       | (st2, Some e) => (st2, Some e)
                       end)
            (match err1 with None => rows1 ++ rows2 | Some _ => rows1 end)
            (match err1 with None => events1 ++ events2 | Some _ => events1 end)
            (match err1 with None => err2 | Some e => Some e end).
Proof.
  intros H1 H2 st. destruct (H1 st) as (He & Hc & stored & Ht & Hs).
  destruct (run1 st) as [st2 e1]. simpl in He, Hc, Ht. subst e1.
  destruct err1 as [e|].
  - simpl. split; [reflexivity|]. split; [exact Hc|]. exists stored. auto.
  - destruct (H2 st2) as (He2 & Hc2 & stored2 & Ht2 & Hs2).
    split; [exact He2|]. split.
    + rewrite Hc2, Hc, <- app_assoc. reflexivity.
    + exists (stored ++ stored2). split.
      * rewrite Ht2, Ht, <- app_assoc. reflexivity.
      * rewrite map_app, Hs, Hs2. reflexivity.
Qed.

Lemma indexedRow_weaken w file files r :
  indexedRow w files r -> indexedRow w (file :: files) r.
Proof.
  unfold indexedRow. intros (H1 & H2 & H3 & f & Hin & Hf).
  split; [exact H1|]. split; [exact H2|]. split; [exact H3|].
  exists f. split; [right; exact Hin | exact Hf].
Qed.

Lemma indexFiles_effect w files :
  exists rows events err,
    hasEffect (indexFiles w files) rows events err /\
    Forall (indexedRow w files) rows /\
    (err = None -> allIndexed w files rows).
Proof.
  induction files as [|file files IH].
  - exists [], [], None. split; [|split].
    + intros st. simpl. rewrite app_nil_r.
      split; [reflexivity|]. split; [reflexivity|].
      exists []. rewrite app_nil_r. split; reflexivity.
    + constructor.
    + intros _ file [].
  - destruct IH as (rows & events & err & IH & Hrows & Hall).
    assert (Hrows' : Forall (indexedRow w (file :: files)) rows).
    { revert Hrows. apply Forall_impl. intros r. apply indexedRow_weaken. }
    destruct (isPdf w file) eqn:Epdf.
    2:{ exists rows, events, err. split; [|split].
        - eapply hasEffect_ext; [|exact IH].
          intros st. simpl. rewrite Epdf. reflexivity.
        - exact Hrows'.
        - intros He f [<-|Hin] Hf; [congruence|]. apply Hall; assumption. }
    destruct (pdf_getText w (path_join_docs w file)) as [t|] eqn:Et.
    2:{ exists [], [LogIndexing (path_join_docs w file)],
               (Some ExtractionFailed).
        split; [|split; [constructor | discriminate]].
        intros st. simpl. rewrite Epdf, Et. simpl.
        split; [reflexivity|]. split; [reflexivity|].
        exists []. rewrite app_nil_r. split; reflexivity. }
    destruct (extractedText t) as [|c text] eqn:Etext.
    + exists rows,
        (LogIndexing (path_join_docs w file) :: WarnNoText file :: events),
        err.
      split; [|split].
      * eapply hasEffect_ext.
        { intros st. simpl. rewrite Epdf, Et, Etext. simpl. reflexivity. }
        apply (hasEffect_log
                 (fun st => indexFiles w files (log st (WarnNoText file)))).
        apply (hasEffect_log (indexFiles w files)). exact IH.
      * exact Hrows'.
      * intros He f [<-|Hin] Hf; [|apply Hall; assumption].
        exists t. split; [exact Et|]. rewrite Etext.
        intros chunk Hc. vm_compute in Hc. contradiction.
    + destruct (saveChunks_effect w (chunkText (c :: text))
                  (metadataOf w file)) as (sevents & serr & Hsave).
      exists (match serr with
              | None => savedRows w (metadataOf w file)
                          (chunkText (c :: text)) ++ rows
              | Some _ => savedRows w (metadataOf w file)
                            (chunkText (c :: text))
              end),
             (LogIndexing (path_join_docs w file) ::
              match serr with
              | None => sevents ++ events
              | Some _ => sevents
              end),
             (match serr with None => err | Some e => Some e end).
      assert (Hsaved : Forall (indexedRow w (file :: files))
                         (savedRows w (metadataOf w file)
                            (chunkText (c :: text)))).
      { apply Forall_forall. intros r Hr.
        apply savedRows_In in Hr. destruct Hr as (chunk & emb & Hin & ->).
        pose proof (chunkText_default_chunks (c :: text)) as Hch.
        rewrite Forall_forall in Hch. destruct (Hch chunk Hin) as [Hwf Hlen].
        split; [reflexivity|]. split; [exact Hwf|]. split; [exact Hlen|].
        exists file. split; [left; reflexivity|].
        split; [exact Epdf|]. split; reflexivity. }
      split; [|split].
      * eapply hasEffect_ext.
        { intros st. simpl. rewrite Epdf, Et, Etext. simpl. reflexivity. }
        apply (hasEffect_log
                 (fun st1 =>
                    match saveChunksAsEmbeddings w (chunkText (c :: text))
                            (metadataOf w file) st1 with
                    | (st2, None) => indexFiles w files st2
                    | (st2, Some e) => (st2, Some e)
                    end)).
        apply (hasEffect_bind _ _ _ _ _ _ _ _ Hsave IH).
      * destruct serr; [exact Hsaved|].
        apply Forall_app. split; assumption.
      * destruct serr as [e|]; [discriminate|]. intros He.
        intros f [<-|Hin] Hf.
        -- exists t. split; [exact Et|]. rewrite Etext. intros chunk Hc.
           assert (Hok : Forall (fun chunk =>
                            chunkFails w (metadataOf w file) chunk = false)
                           (chunkText (c :: text))).
           { apply (saveChunks_error w _ _ emptyState).
             apply (Hsave emptyState). }
           rewrite Forall_forall in Hok.
           destruct (savedRows_complete w (metadataOf w file) _ chunk Hc
                       (Hok chunk Hc)) as (emb & Hemb & Hin).
           exists emb. split; [exact Hemb|].
           apply in_or_app. left. exact Hin.
        -- destruct (Hall He f Hin Hf) as (t' & Ht' & Hch).
           exists t'. split; [exact Ht'|]. intros chunk Hc.
           destruct (Hch chunk Hc) as (emb & Hemb & Hr).
           exists emb. split; [exact Hemb|].
           apply in_or_app. right. exact Hr.
Qed.

Lemma indexLocalDocs_effect w :
  exists rows events err,
    hasEffect (indexLocalDocs w) rows events err /\
    Forall (indexedRow w (readdirSync_docs w)) rows /\
    (err = None ->
     existsSync_docs w = true /\ allIndexed w (readdirSync_docs w) rows).
Proof.
  destruct (existsSync_docs w) eqn:Ex.
  - destruct (indexFiles_effect w (readdirSync_docs w))
      as (rows & events & err & H1 & H2 & H3).
    exists rows, events, err. split; [|split; [exact H2 | auto]].
    eapply hasEffect_ext; [|exact H1].
    intros st. unfold indexLocalDocs. rewrite Ex. reflexivity.
  - exists [], [], (Some DocsFolderNotFound).
    split; [|split; [constructor | discriminate]].
    intros st. unfold indexLocalDocs. rewrite Ex. simpl.
    rewrite app_nil_r. split; [reflexivity|]. split; [reflexivity|].
    exists []. rewrite app_nil_r. split; reflexivity.
Qed.

(** X7.  Folder indexing only appends to the table and to the console.
    Every row it adds has source "pdf", the title and path of a PDF of the
    listing, and as content a chunk that is non-empty after trimming, free of
    white space other than single spaces, and at most 1000 characters long. *)
Theorem indexLocalDocs_rows w st :
  exists stored events,
    table (fst (indexLocalDocs w st)) = table st ++ stored /\
    console (fst (indexLocalDocs w st)) = console st ++ events /\
    Forall (fun r => indexedRow w (readdirSync_docs w) (stripId r)) stored.
Proof.
  destruct (indexLocalDocs_effect w) as (rows & events & err & H & Hrows & _).
  destruct (H st) as (_ & Hc & stored & Ht & Hs).
  exists stored, events. split; [exact Ht|]. split; [exact Hc|].
  rewrite <- Hs in Hrows. rewrite Forall_map in Hrows. exact Hrows.
Qed.

(** X8.  Folder indexing does not look at the table and removes nothing
    from it: run a second time in the same world, from the state the first
    run left, it fails exactly when the first run failed, and it appends
    again the rows the first run appended (the same rows up to their serial
    ids and their order) and the same console lines (up to their order). *)
Theorem indexLocalDocs_twice w st :
  (snd (indexLocalDocs w (fst (indexLocalDocs w st))) = None <->
   snd (indexLocalDocs w st) = None) /\
  exists stored1 stored2 events1 events2,
    table (fst (indexLocalDocs w st)) = table st ++ stored1 /\
    table (fst (indexLocalDocs w (fst (indexLocalDocs w st)))) =
      table st ++ stored1 ++ stored2 /\
    Permutation (map stripId stored2) (map stripId stored1) /\
    console (fst (indexLocalDocs w st)) = console st ++ events1 /\
    console (fst (indexLocalDocs w (fst (indexLocalDocs w st)))) =
      console st ++ events1 ++ events2 /\
    Permutation events2 events1.
Proof.
  destruct (indexLocalDocs_effect w) as (rows & events & err & H & _ & _).
  destruct (H st) as (He1 & Hc1 & stored1 & Ht1 & Hs1).
  destruct (H (fst (indexLocalDocs w st)))
    as (He2 & Hc2 & stored2 & Ht2 & Hs2).
  split; [rewrite He1, He2; reflexivity|].
  exists stored1, stored2, events, events.
  split; [exact Ht1|]. split; [|split; [|split; [|split]]].
  - rewrite Ht2, Ht1, <- app_assoc. reflexivity.
  - rewrite Hs1, Hs2. reflexivity.
  - exact Hc1.
  - rewrite Hc2, Hc1, <- app_assoc. reflexivity.
  - reflexivity.
Qed.

Example indexLocalDocs_twice_quiet :
  map content
      (table (fst (indexLocalDocs quietWorld
                     (fst (indexLocalDocs quietWorld emptyState))))) =
  [js "y"; js "y"].
Proof. vm_compute. reflexivity. Qed.

(** X9.  When [POST /index-docs] answers 200, the docs folder exists and,
    for every PDF of the listing, the text was extracted and every chunk of
    it has been embedded and added to the table with the metadata of that
    file.  When the folder does not exist the route answers 500 with the
    folder error and leaves table and console as they are. *)
Theorem indexRoute_ok_all_indexed w st :
  (index_status (snd (indexRoute w st)) = 200 ->
   existsSync_docs w = true /\
   exists stored,
     table (fst (fst (indexRoute w st))) = table st ++ stored /\
     allIndexed w (readdirSync_docs w) (map stripId stored)) /\
  (existsSync_docs w = false ->
   fst (fst (indexRoute w st)) = st /\
   snd (indexRoute w st) =
     {| index_status := 500;
        index_body := IndexFailure (js "Failed to index local docs")
                        DocsFolderNotFound |}).
Proof.
  split.
  - destruct (indexLocalDocs_effect w) as (rows & events & err & H & _ & Hall).
    destruct (H st) as (He & _ & stored & Ht & Hs).
    unfold indexRoute.
    destruct (indexLocalDocs w st) as [st' [e|]]; simpl in *;
      [discriminate|].
    intros _. destruct (Hall (eq_sym He)) as [Hex Hidx].
    split; [exact Hex|]. exists stored. split; [exact Ht|].
    rewrite Hs. exact Hidx.
  - intros Hex. unfold indexRoute, indexLocalDocs. rewrite Hex. simpl.
    split; reflexivity.
Qed.

Lemma indexRoute_ok_all_indexed_witness :
  existsSync_docs quietWorld = true /\
  exists stored,
    table (fst (fst (indexRoute quietWorld emptyState))) =
      table emptyState ++ stored /\
    allIndexed quietWorld (readdirSync_docs quietWorld) (map stripId stored).
Proof.
  apply (proj1 (indexRoute_ok_all_indexed quietWorld emptyState)).
  reflexivity.
Defined.

(** * Further properties of the retriever *)

Lemma In_skipn {A} n (l : list A) b : In b (skipn n l) -> In b l.
Proof.
  revert l. induction n as [|n IH]; intros [|x l] H; simpl in *; auto.
Qed.

Lemma StronglySorted_firstn_skipn {A} (R : A -> A -> Prop) n l a b :
  StronglySorted R l -> In a (firstn n l) -> In b (skipn n l) -> R a b.
Proof.
  revert l. induction n as [|n IH]; intros [|x l] Hs Ha Hb; simpl in *;
    try contradiction.
  inversion Hs as [|? ? Hs' Hall]; subst.
  destruct Ha as [<-|Ha].
  - rewrite Forall_forall in Hall. apply Hall.
    eapply In_skipn. exact Hb.
  - eapply IH; eassumption.
Qed.

Lemma selectMatches_complete w rows q thr d :
  In d rows -> (thr < similarityOf w q d)%Q ->
  In {| match_id := id d; match_content := content d;
        similarity := similarityOf w q d |}
     (selectMatches w rows q thr).
Proof.
  intros Hin Hlt. unfold selectMatches. apply in_map_iff.
  exists d. split; [reflexivity|]. apply filter_In.
  split; [exact Hin | apply Qgtb_lt; exact Hlt].
Qed.

(** X10.  The matches returned for a query are the best ones: together
    with the matches left out they are exactly the rows of the table that
    score above 0.5, no match left out scores higher than a returned one,
    and their number is the smaller of 10 and the number of rows above the
    threshold, so nothing is left out while fewer than 10 rows qualify. *)
Theorem retrieve_top_matches w rows query data :
  retrieve w rows query = Some data ->
  exists emb rest,
    embeddings_create w (replaceNewlines query) = Some emb /\
    Permutation (data ++ rest) (selectMatches w rows emb (1 # 2)) /\
    (forall d, In d rows -> (1 # 2 < similarityOf w emb d)%Q ->
       In {| match_id := id d; match_content := content d;
             similarity := similarityOf w emb d |} (data ++ rest)) /\
    (forall m m', In m data -> In m' rest ->
       (similarity m' <= similarity m)%Q) /\
    List.length data =
      Nat.min 10 (List.length (selectMatches w rows emb (1 # 2))).
Proof.
  unfold retrieve. intros H.
  destruct (embeddings_create w (replaceNewlines query)) as [emb|];
    [|discriminate].
  destruct (rpc_error w); [discriminate|]. injection H as <-.
  unfold match_documents, match_threshold_used, match_count_used.
  set (sel := selectMatches w rows emb (1 # 2)).
  exists emb, (skipn 10 (orderBySimilarityDesc sel)).
  split; [reflexivity|].
  assert (Hperm : Permutation
            (firstn 10 (orderBySimilarityDesc sel) ++
             skipn 10 (orderBySimilarityDesc sel)) sel).
  { rewrite firstn_skipn. apply orderBySimilarityDesc_perm. }
  split; [exact Hperm|]. split; [|split].
  - intros d Hd Hlt. eapply Permutation_in; [symmetry; exact Hperm|].
    apply selectMatches_complete; assumption.
  - intros m m' Hm Hm'.
    apply (StronglySorted_firstn_skipn descending 10
             (orderBySimilarityDesc sel) m m');
      [apply orderBySimilarityDesc_sorted | exact Hm | exact Hm'].
  - rewrite length_firstn.
    rewrite (Permutation_length (orderBySimilarityDesc_perm sel)).
    reflexivity.
Qed.

Lemma retrieve_top_matches_witness :
  exists emb rest,
    embeddings_create scoreWorld (replaceNewlines (js "q")) = Some emb /\
    Permutation (match_documents scoreWorld scoreRows [] (1 # 2) 10 ++ rest)
                (selectMatches scoreWorld scoreRows emb (1 # 2)) /\
    (forall d, In d scoreRows -> (1 # 2 < similarityOf scoreWorld emb d)%Q ->
       In {| match_id := id d; match_content := content d;
             similarity := similarityOf scoreWorld emb d |}
          (match_documents scoreWorld scoreRows [] (1 # 2) 10 ++ rest)) /\
    (forall m m',
       In m (match_documents scoreWorld scoreRows [] (1 # 2) 10) ->
       In m' rest -> (similarity m' <= similarity m)%Q) /\
    List.length (match_documents scoreWorld scoreRows [] (1 # 2) 10) =
      Nat.min 10
        (List.length (selectMatches scoreWorld scoreRows emb (1 # 2))).
Proof.
  apply (retrieve_top_matches scoreWorld scoreRows (js "q")). reflexivity.
Defined.

(** * Further properties of the query pipeline *)

(** X11.  The text sent for embedding has the length of the query and no
    line feed, and it is the query itself when the query has no line feed. *)
Theorem replaceNewlines_spec query :
  List.length (replaceNewlines query) = List.length query /\
  ~ In LF (replaceNewlines query) /\
  (~ In LF query -> replaceNewlines query = query).
Proof.
  unfold replaceNewlines. split; [apply length_map|]. split.
  - intros H. apply in_map_iff in H. destruct H as (c & Hc & _).
    destruct (N.eqb_spec c LF) as [E|E]; [discriminate Hc | congruence].
  - intros H. induction query as [|c q IH]; simpl; [reflexivity|].
    destruct (N.eqb_spec c LF) as [E|E].
    + exfalso. apply H. left. exact E.
    + f_equal. apply IH. intros Hin. apply H. right. exact Hin.
Qed.



(** X13.  The query route calls a service only when a body was parsed and
    its [query] is a string that is not blank.  Without a parsed body the
    answer is 500.  With a parsed body whose [query] is not a string the
    answer comes without any call: 400 when the value is falsy (property
    absent, null, false, 0) and 500 when it is truthy (true, a non-zero
    number, an object), since it has no [trim] method. *)
Theorem queryRoute_not_a_string w rows reqBody :
  (fst (queryRoute w rows reqBody) <> [] ->
   exists s, reqBody = BodyParsed (JString s) /\ blank s = false) /\
  (reqBody = BodyUndefined ->
   queryRoute w rows reqBody = ([], internalError)) /\
  (forall query,
     reqBody = BodyParsed query -> (forall s, query <> JString s) ->
     queryRoute w rows reqBody =
       ([], if falsy query then badRequest else internalError)).
Proof.
  split; [|split].
  - intros H. destruct reqBody as [|query];
      [contradiction H; reflexivity|].
    destruct query as [| |b|n|s|]; unfold queryRoute in H; simpl in H;
      try (contradiction H; reflexivity);
      try (destruct b; contradiction H; reflexivity);
      try (destruct (Qeq_bool n 0); contradiction H; reflexivity).
    exists s. split; [reflexivity|].
    destruct (blank s) eqn:Eb; [|reflexivity]. exfalso.
    pose proof (trim_blank s Eb) as Et.
    destruct (isEmpty s); [apply H; reflexivity|].
    rewrite Et in H. apply H. reflexivity.
  - intros ->. reflexivity.
  - intros query -> H. destruct query as [| |b|n|s|]; unfold queryRoute;
      simpl; try reflexivity.
    + destruct b; reflexivity.
    + destruct (Qeq_bool n 0); reflexivity.
    + contradiction (H s). reflexivity.
Qed.

Lemma queryRoute_not_a_string_witness :
  queryRoute exampleWorld [rowY] (BodyParsed (JNumber (5 # 1))) =
    ([], internalError) /\
  queryRoute exampleWorld [rowY] BodyUndefined = ([], internalError) /\
  exists s, BodyParsed (JString (js "why?")) = BodyParsed (JString s) /\
            blank s = false.
Proof.
  split; [|split].
  - apply (proj2 (proj2 (queryRoute_not_a_string exampleWorld [rowY]
                    (BodyParsed (JNumber (5 # 1))))) (JNumber (5 # 1))
             eq_refl).
    intros s. discriminate.
  - apply (proj1 (proj2 (queryRoute_not_a_string exampleWorld [rowY]
                    BodyUndefined))). reflexivity.
  - apply (proj1 (queryRoute_not_a_string exampleWorld [rowY]
                    (BodyParsed (JString (js "why?"))))).
    discriminate.
Defined.

(** * The chunks by index *)

(** X14.  For [chunkSize >= 2] and [chunkOverlap < chunkSize], the chunk of
    index [k] in the result is the substring of the cleaned text that starts
    at [k * (chunkSize - chunkOverlap)]; that offset lies inside the text and
    the chunk has [chunkSize] characters, or fewer when the text ends
    before. *)
Theorem chunkText_nth text cs co :
  2 <= cs -> co < cs ->
  exists chunks,
    chunkText_returns text cs co chunks /\
    forall k chunk,
      nth_error chunks k = Some chunk ->
      let offset := Z.of_nat k * (cs - co) in
      offset < JS.length (cleanText text) /\
      chunk = substring (cleanText text) offset (offset + cs) /\
      JS.length chunk = Z.min cs (JS.length (cleanText text) - offset).
Proof.
  intros H1 H2. eexists. split.
  - exists (S (List.length (cleanText text))).
    apply chunkText_closed; trivial; lia.
  - rewrite chunks_windows by assumption.
    intros k chunk Hnth offset.
    apply nth_error_map_seq in Hnth. destruct Hnth as [Hk ->].
    apply iterations_spec in Hk; [|lia|unfold JS.length; lia].
    fold offset in Hk. split; [exact Hk|]. split.
    + rewrite substring_window by (unfold offset; nia).
      do 2 f_equal. unfold offset. nia.
    + unfold JS.length in *. rewrite length_firstn, length_skipn.
      unfold offset in *. nia.
Qed.

Lemma chunkText_nth_witness :
  exists chunks,
    chunkText_returns (js "ab cd ef") 4 1 chunks /\
    forall k chunk,
      nth_error chunks k = Some chunk ->
      let offset := Z.of_nat k * (4 - 1) in
      offset < JS.length (cleanText (js "ab cd ef")) /\
      chunk = substring (cleanText (js "ab cd ef")) offset (offset + 4) /\
      JS.length chunk =
        Z.min 4 (JS.length (cleanText (js "ab cd ef")) - offset).
Proof. apply (chunkText_nth (js "ab cd ef") 4 1); lia. Defined.
